(** * The cache index of the sync-handler

    A shallow embedding of the [cacheIndex] object: the persisted list of
    cached-record entries kept under the store key [records-list], with its
    add / remove / prune / clear operations, and the properties the
    specification states about them.

    Promises are modelled by their final outcome (fulfilled, rejected, or
    never settled) together with the effects the call has on the world: the
    persistent store, the clock, the heap of deserialised objects, the list
    of store operations issued and the debug log.  One call runs to
    quiescence before the next one starts. *)

From Stdlib Require Import ZArith Lia Ascii String.
From stdpp Require Import base strings gmap list sorting.


(** ** Data model *)

(** One record of the index: [{ key, timestamp, pageSeriesKey? }].  The
    optional field is [None] when the property is absent. *)
Record IndexEntry := {
  key : string;
  timestamp : Z;
  pageSeriesKey : option string;
}.

Global Instance IndexEntry_eq_dec : EqDecision IndexEntry.
Proof. solve_decision. Defined.

(** A JavaScript object holding an index record: its reference and its
    properties.  lodash compares objects by reference. *)
Record Obj := {
  ref : nat;
  fields : IndexEntry;
}.

Global Instance Obj_eq_dec : EqDecision Obj.
Proof. solve_decision. Defined.

(** The operations of the persistent store the module issues. *)
Inductive StoreOp :=
  | OpGetItem (k : string)
  | OpSetItem (k : string) (v : list IndexEntry)
  | OpRemoveItem (k : string)
  | OpKeys.

Global Instance StoreOp_eq_dec : EqDecision StoreOp.
Proof. solve_decision. Defined.

(** The messages handed to [debug]. *)
Inductive LogEvent :=
  | LogAdding (k : string)                  (* 'adding %o record' *)
  | LogRemoving (k : string)                (* 'removing %o record' *)
  | LogRecordsRemoved (n : nat)             (* '%o records removed' *)
  | LogStartPrune (lifetime : option Z)     (* 'start to prune records older than %s' *)
  | LogNoRecords.                           (* 'No records to remove' *)

(** The [lifetime] argument of [pruneRecordsFrom]: a number of
    milliseconds or a string for [ms]. *)
Inductive Lifetime :=
  | LNumber (n : Z)
  | LString (s : string).

(** What the module takes from its surroundings: the payload type, the
    request-parameter values, the readings of [Date.now()] (the n-th call
    reads [Date_now_reading n]), which store operations fail
    ([store_fails n op]: the operation [op], issued after [n] earlier
    ones, is rejected), the duration parser [ms] ([None] when it returns
    [undefined]) and [generateKey] of the sync-handler. *)
Class Env := {
  Payload : Type;
  ReqValue : Type;
  Date_now_reading : nat -> Z;
  store_fails : nat -> StoreOp -> bool;
  ms : string -> option Z;
  generateKey : gmap string ReqValue -> string;
}.

(** How a promise ends. *)
Inductive Outcome (A : Type) : Type :=
  | Fulfilled (a : A)
  | Rejected (e : StoreOp)
  | Pending.
Arguments Fulfilled {A} a.
Arguments Rejected {A} e.
Arguments Pending {A}.

Definition RECORDS_LIST_KEY : string := "records-list".
Definition LIFETIME : string := "2 days".

(** [\w] of a JavaScript regular expression without flags. *)
Definition is_word_char (c : ascii) : bool :=
  let n := nat_of_ascii c in
  ((48 <=? n) && (n <=? 57)) || ((65 <=? n) && (n <=? 90))
  || ((97 <=? n) && (n <=? 122)) || (n =? 95).

Fixpoint strip_prefix (p s : string) : option string :=
  match p, s with
  | EmptyString, _ => Some s
  | String a p', String b s' => if Ascii.eqb a b then strip_prefix p' s' else None
  | String _ _, EmptyString => None
  end.

Fixpoint all_word_chars (s : string) : bool :=
  match s with
  | EmptyString => true
  | String c s' => is_word_char c && all_word_chars s'
  end.

(** [/^sync-record-\w+$/.test( s )]: anchored at both ends, no flags. *)
Definition SYNC_RECORD_REGEX_test (s : string) : bool :=
  match strip_prefix "sync-record-" s with
  | Some (String c rest) => is_word_char c && all_word_chars rest
  | _ => false
  end.

Definition isSyncRecordKey (k : string) : bool := SYNC_RECORD_REGEX_test k.

Section Model.
Context `{Env}.

(** ** The world *)

(** The persistent store.  The slot of [RECORDS_LIST_KEY] holds the index
    array or nothing and is kept apart from the payloads, which are opaque;
    a binding of [RECORDS_LIST_KEY] inside [payloads] is never read, listed
    or written. *)
Record Store := {
  records_list : option (list IndexEntry);
  payloads : gmap string Payload;
}.

Record World := {
  store : Store;
  ticks : nat;                (* calls of Date.now() so far *)
  next_ref : nat;             (* next free object reference *)
  trace : list StoreOp;       (* store operations issued, oldest first *)
  log : list LogEvent;        (* debug messages, oldest first *)
}.

Definition Promise (A : Type) : Type := World -> Outcome A * World.

Definition resolved {A} (a : A) : Promise A := fun w => (Fulfilled a, w).

(** [p.then( f )] *)
Definition then_ {A B} (p : Promise A) (f : A -> Promise B) : Promise B :=
  fun w =>
    match p w with
    | (Fulfilled a, w') => f a w'
    | (Rejected e, w') => (Rejected e, w')
    | (Pending, w') => (Pending, w')
    end.

(** [new Promise( ( resolve, reject ) => p.then( resolve ).catch( reject ) )] *)
Definition settle_with {A} (p : Promise A) : Promise A := p.

(** [new Promise( resolve => p.then( resolve ) )]: nothing ever calls
    [reject], so a rejection of [p] leaves the new promise unsettled. *)
Definition resolve_only {A} (p : Promise A) : Promise A :=
  fun w =>
    match p w with
    | (Fulfilled a, w') => (Fulfilled a, w')
    | (_, w') => (Pending, w')
    end.

(** [Promise.all( values )] on settled or pending inputs. *)
Fixpoint Promise_all {A} (os : list (Outcome A)) : Outcome (list A) :=
  match os with
  | [] => Fulfilled []
  | o :: os' =>
      match o, Promise_all os' with
      | Rejected e, _ => Rejected e
      | _, Rejected e => Rejected e
      | Pending, _ => Pending
      | _, Pending => Pending
      | Fulfilled a, Fulfilled l => Fulfilled (a :: l)
      end
  end.

(** Calls every function of the list in turn, as [array.map] does, and
    collects what each returns. *)
Fixpoint call_each {A} (ps : list (Promise A)) (w : World)
  : list (Outcome A) * World :=
  match ps with
  | [] => ([], w)
  | p :: ps' =>
      let '(o, w1) := p w in
      let '(os, w2) := call_each ps' w1 in
      (o :: os, w2)
  end.

Definition debug (m : LogEvent) (w : World) : World :=
  {| store := store w; ticks := ticks w; next_ref := next_ref w;
     trace := trace w; log := log w ++ [m] |}.

(** [Date.now()] *)
Definition Date_now (w : World) : Z * World :=
  (Date_now_reading (ticks w),
   {| store := store w; ticks := S (ticks w); next_ref := next_ref w;
      trace := trace w; log := log w |}).

End Model.

(** ** The persistent store *)

Module localforage.
Section Store.
Context `{Env}.

(** What the store holds under a key. *)
Inductive Value :=
  | VRecords (l : list IndexEntry)
  | VPayload (p : Payload).

Definition lookup (s : Store) (k : string) : option Value :=
  if decide (k = RECORDS_LIST_KEY) then VRecords <$> records_list s
  else VPayload <$> payloads s !! k.

(** Issues [op]: it is rejected when the store fails it, and otherwise
    fulfilled with [result] while [effect] is applied to the store. *)
Definition issue {A} (op : StoreOp) (result : World -> A * nat)
    (effect : Store -> Store) : Promise A :=
  fun w =>
    let tr := trace w ++ [op] in
    if store_fails (length (trace w)) op then
      (Rejected op,
       {| store := store w; ticks := ticks w; next_ref := next_ref w;
          trace := tr; log := log w |})
    else
      let '(a, nr) := result w in
      (Fulfilled a,
       {| store := effect (store w); ticks := ticks w; next_ref := nr;
          trace := tr; log := log w |}).

(** Every read hands out fresh objects. *)
Fixpoint deserialize (base : nat) (l : list IndexEntry) : list Obj :=
  match l with
  | [] => []
  | e :: l' => {| ref := base; fields := e |} :: deserialize (S base) l'
  end.

Definition serialize (l : list Obj) : list IndexEntry := map fields l.

(** Modelled from the spec: the store contract of lib/localforage,
    [getItem(key) -> promise<value|null>], here at [RECORDS_LIST_KEY]. *)
Definition getItem_records : Promise (option (list Obj)) :=
  issue (OpGetItem RECORDS_LIST_KEY)
    (fun w =>
       match records_list (store w) with
       | Some l => (Some (deserialize (next_ref w) l), next_ref w + length l)
       | None => (None, next_ref w)
       end)
    (fun s => s).

(** Modelled from the spec: [setItem(key, value) -> promise<ack>], here at
    [RECORDS_LIST_KEY]. *)
Definition setItem_records (v : list Obj) : Promise unit :=
  issue (OpSetItem RECORDS_LIST_KEY (serialize v))
    (fun w => (tt, next_ref w))
    (fun s => {| records_list := Some (serialize v); payloads := payloads s |}).

(** The store without what it held under [k]. *)
Definition forget (k : string) (s : Store) : Store :=
  if decide (k = RECORDS_LIST_KEY)
  then {| records_list := None; payloads := payloads s |}
  else {| records_list := records_list s; payloads := delete k (payloads s) |}.

(** Modelled from the spec: [removeItem(key) -> promise<ack>]. *)
Definition removeItem (k : string) : Promise unit :=
  issue (OpRemoveItem k) (fun w => (tt, next_ref w)) (forget k).

Definition stored_keys (s : Store) : list string :=
  match records_list s with Some _ => [RECORDS_LIST_KEY] | None => [] end
  ++ List.filter (fun k => negb (String.eqb k RECORDS_LIST_KEY))
       (map fst (map_to_list (payloads s))).

(** Modelled from the spec: [keys() -> promise<sequence of key>]. *)
Definition keys : Promise (list string) :=
  issue OpKeys (fun w => (stored_keys (store w), next_ref w)) (fun s => s).

End Store.
End localforage.

(** ** lodash *)

Module lodash.

Definition negate {A} (p : A -> bool) : A -> bool := fun x => negb (p x).

(** [matchesProperty( 'key', srcValue )] with a string [srcValue]:
    strict equality on the property. *)
Definition matchesProperty_key (srcValue : string) : Obj -> bool :=
  fun o => bool_decide (key (fields o) = srcValue).

(** [filter( collection, predicate )]; a [null] collection gives []. *)
Definition filter {A} (collection : option (list A)) (predicate : A -> bool)
  : list A :=
  match collection with
  | Some l => List.filter predicate l
  | None => []
  end.

(** [filter] with a predicate that has effects: it is called once per
    element, in order. *)
Fixpoint filter_each {A S} (predicate : A -> S -> bool * S) (l : list A) (s : S)
  : list A * S :=
  match l with
  | [] => ([], s)
  | x :: l' =>
      let '(b, s1) := predicate x s in
      let '(r, s2) := filter_each predicate l' s1 in
      (if b then x :: r else r, s2)
  end.

Definition filter_eff {A S} (collection : option (list A))
    (predicate : A -> S -> bool * S) (s : S) : list A * S :=
  match collection with
  | Some l => filter_each predicate l s
  | None => ([], s)
  end.

(** [difference( array, values )] on arrays of objects: SameValueZero is
    reference equality; a [null] array gives []. *)
Definition difference (array : option (list Obj)) (values : list Obj) : list Obj :=
  match array with
  | Some l =>
      List.filter (fun o => negb (existsb (fun v => Nat.eqb (ref o) (ref v)) values)) l
  | None => []
  end.

(** [omit( object, 'prop' )] *)
Definition omit {V} (object : gmap string V) (prop : string) : gmap string V :=
  delete prop object.

End lodash.

(** ** The cache index *)

(** What [dropOlderThan] and [pickPageSeries] hand to
    [removeRecordsByList]. *)
Record RecordsPartition := {
  removedRecords : list Obj;
  retainedRecords : list Obj;
}.

Module cacheIndex.
Section Operations.
Context `{Env}.

Definition getAll : Promise (option (list Obj)) :=
  localforage.getItem_records.

Definition dropMatches (k : string) (records : option (list Obj)) : list Obj :=
  lodash.filter records (lodash.negate (lodash.matchesProperty_key k)).

Definition getAllExcluding (k : string) : Promise (list Obj) :=
  settle_with (then_ getAll (fun records => resolved (dropMatches k records))).

(** [if ( pageSeriesKey )]: [null], [undefined] and the empty string are
    falsy. *)
Definition truthy (v : option string) : bool :=
  match v with
  | Some s => negb (String.eqb s EmptyString)
  | None => false
  end.

(** [addItem( key, pageSeriesKey = null )]; the new object literal takes
    the next free reference. *)
Definition addItem (k : string) (psk : option string) : Promise unit :=
  then_ (getAllExcluding k) (fun records w =>
    let w1 := debug (LogAdding k) w in
    let '(now, w2) := Date_now w1 in
    let record :=
      {| ref := next_ref w2;
         fields := {| key := k; timestamp := now;
                      pageSeriesKey := if truthy psk then psk else None |} |} in
    let w3 := {| store := store w2; ticks := ticks w2; next_ref := S (next_ref w2);
                 trace := trace w2; log := log w2 |} in
    localforage.setItem_records (records ++ [record]) w3).

Definition removeItem (k : string) : Promise unit :=
  then_ (getAllExcluding k) (fun records w =>
    let w1 := debug (LogRemoving k) w in
    localforage.setItem_records records w1).

(** [Date.now() - lifetime > rec.timestamp]; an [undefined] lifetime makes
    the left side NaN and the comparison false.  The numbers are
    integer-valued doubles, given by their value: the subtraction is the
    one of the source as long as its result is exact, that is within
    2^53 in absolute value (see [exact_difference]); the comparison of two
    doubles is always exact. *)
Definition is_elder (now : Z) (lifetime : option Z) (rec : Obj) : bool :=
  match lifetime with
  | Some l => (timestamp (fields rec) <? now - l)%Z
  | None => false
  end.

Definition dropElders (lifetime : option Z) (records : option (list Obj))
    (w : World) : RecordsPartition * World :=
  let '(removed, w1) :=
    lodash.filter_eff records
      (fun rec w0 => let '(now, w0') := Date_now w0 in (is_elder now lifetime rec, w0'))
      w in
  ({| removedRecords := removed;
      retainedRecords := lodash.difference records removed |}, w1).

Definition dropOlderThan (lifetime : option Z) : Promise RecordsPartition :=
  settle_with (then_ getAll (fun records w =>
    let '(data, w1) := dropElders lifetime records w in (Fulfilled data, w1))).

Definition clearAll : Promise (list unit) :=
  then_ localforage.keys (fun ks w =>
    let syncHandlerKeys := List.filter isSyncRecordKey ks in
    let '(itemsPromises, w1) := call_each (map localforage.removeItem syncHandlerKeys) w in
    let '(recordsPromise, w2) := localforage.removeItem RECORDS_LIST_KEY w1 in
    let w3 := debug (LogRecordsRemoved (length syncHandlerKeys + 1)) w2 in
    (Promise_all (itemsPromises ++ [recordsPromise]), w3)).

(** The arrow function mapped over [removedRecords] has a block body
    without [return]: every removal is issued, and [droppedPromises] is an
    array of [undefined], which [Promise.all] takes as already fulfilled. *)
Definition removeRecordsByList (data : RecordsPartition) : Promise unit :=
  resolve_only (fun w =>
    if Nat.eqb (length (removedRecords data)) 0 then
      (* returns from the executor without calling [resolve] *)
      (Pending, debug LogNoRecords w)
    else
      let '(_, w1) :=
        call_each (map (fun item => localforage.removeItem (key (fields item)))
                       (removedRecords data)) w in
      let droppedPromises : list (Outcome unit) :=
        map (fun _ => Fulfilled tt) (removedRecords data) in
      let '(recordsListPromise, w2) :=
        localforage.setItem_records (retainedRecords data) w1 in
      then_ (fun w' => (Promise_all (droppedPromises ++ [recordsListPromise]), w'))
            (fun _ w' =>
               (Fulfilled tt,
                debug (LogRecordsRemoved (length (removedRecords data) + 1)) w'))
            w2).

(** [lifetime = LIFETIME] when the argument is left out. *)
Definition pruneRecordsFrom (lifetime : option Lifetime) : Promise unit :=
  fun w =>
    let lifetime :=
      match default (LString LIFETIME) lifetime with
      | LNumber n => Some n
      | LString s => ms s
      end in
    let w1 := debug (LogStartPrune lifetime) w in
    then_ (dropOlderThan lifetime) removeRecordsByList w1.

Definition pickPageSeries (psk : string) (records : option (list Obj))
  : RecordsPartition :=
  let removed :=
    lodash.filter records
      (fun record => bool_decide (pageSeriesKey (fields record) = Some psk)) in
  {| removedRecords := removed;
     retainedRecords := lodash.difference records removed |}.

Definition clearPageSeries (reqParams : gmap string ReqValue) : Promise unit :=
  resolve_only
    (let psk := generateKey (lodash.omit reqParams "next_page") in
     then_ (then_ getAll (fun records => resolved (pickPageSeries psk records)))
           removeRecordsByList).

End Operations.
End cacheIndex.

(** ** Callers and sample environments *)

(** A caller that issues [addItem] calls one after the other, whatever
    each of them answers. *)
Fixpoint addItems `{Env} (calls : list (string * option string)) (w : World) : World :=
  match calls with
  | [] => w
  | (k, psk) :: calls' => addItems calls' (snd (cacheIndex.addItem k psk w))
  end.

Definition index_list `{Env} (w : World) : list IndexEntry :=
  default [] (records_list (store w)).

Definition unique_keys (l : list IndexEntry) : Prop := NoDup (map key l).

(** No store operation issued from [w] on fails. *)
Definition store_ok_after `{Env} (w : World) : Prop :=
  forall i op, length (trace w) <= i -> store_fails i op = false.

(** A stand-in for the surroundings: payloads and parameter values are
    strings, [ms] knows the default lifetime, and [generateKey] reads the
    [path] parameter. *)
Definition sample_env (clock : nat -> Z) (fails : nat -> StoreOp -> bool) : Env :=
  {| Payload := string;
     ReqValue := string;
     Date_now_reading := clock;
     store_fails := fails;
     ms := fun s => if String.eqb s "2 days" then Some 172800000%Z else None;
     generateKey := fun p => "sync-record-" +:+ default EmptyString (p !! "path") |}.

(** A store that never fails and a clock that advances by one millisecond
    per reading. *)
Definition reliable_env : Env :=
  sample_env (fun n => (1000 + Z.of_nat n)%Z) (fun _ _ => false).

(** The same with a clock standing at [T] = 300000000. *)
Definition steady_env : Env :=
  sample_env (fun _ => 300000000%Z) (fun _ _ => false).

(** A store that rejects every removal. *)
Definition removals_fail_env : Env :=
  sample_env (fun n => (1000 + Z.of_nat n)%Z)
    (fun _ op => match op with OpRemoveItem _ => true | _ => false end).

Definition sample_world `{Env} (idx : option (list IndexEntry))
    (p : gmap string Payload) : World :=
  {| store := {| records_list := idx; payloads := p |};
     ticks := 0; next_ref := 0; trace := []; log := [] |}.

Definition entry (k : string) (t : Z) (g : option string) : IndexEntry :=
  {| key := k; timestamp := t; pageSeriesKey := g |}.

Definition sample_payloads : gmap string string :=
  <["sync-record-a" := "A"%string]>
    (<["sync-record-b" := "B"%string]> (<["settings" := "S"%string]> ∅)).

(** A store that was never written. *)
Definition blank_world : @World reliable_env :=
  sample_world (H := reliable_env) None ∅.

(** Two fresh entries, one of them in a page series, and a payload that
    is no cached record. *)
Definition fresh_world : @World reliable_env :=
  sample_world (H := reliable_env)
    (Some [entry "sync-record-a" 1000 (Some "sync-record-/posts"%string);
           entry "sync-record-b" 990 None])
    sample_payloads.

(** Three entries: of the series of [/posts], of the series of [/tags],
    and ungrouped. *)
Definition series_world : @World reliable_env :=
  sample_world (H := reliable_env)
    (Some [entry "sync-record-a" 10 (Some "sync-record-/posts"%string);
           entry "sync-record-b" 20 (Some "sync-record-/tags"%string);
           entry "sync-record-c" 30 None])
    sample_payloads.

Definition posts_page_2 : gmap string (@ReqValue reliable_env) :=
  <["path" := "/posts"%string]> (<["next_page" := "2"%string]> ∅).

(** The scenario of the specification: [a] stamped [T], [b] stamped three
    days before, the clock at [T]. *)
Definition aged_world : @World steady_env :=
  sample_world (H := steady_env)
    (Some [entry "sync-record-a" 300000000 None;
           entry "sync-record-b" 40800000 None])
    sample_payloads.

(** One old entry in a store that rejects removals. *)
Definition failing_world : @World removals_fail_env :=
  sample_world (H := removals_fail_env)
    (Some [entry "sync-record-a" 0 None]) sample_payloads.

Definition one_removed : RecordsPartition :=
  {| removedRecords := [{| ref := 0; fields := entry "sync-record-a" 0 None |}];
     retainedRecords := [] |}.

Definition none_removed : RecordsPartition :=
  {| removedRecords := [];
     retainedRecords :=
       [{| ref := 0; fields := entry "sync-record-a" 1000 (Some "sync-record-/posts"%string) |};
        {| ref := 1; fields := entry "sync-record-b" 990 None |}] |}.

(** ** The notices of the Jetpack connection form *)

Module JetpackConnectNotices.
Section Component.
Variable Handler : Type.
(** [this.translate], of the i18n mixin. *)
Variable translate : string -> string.

(** [this.props]; a property that is not passed is [None]. *)
Record Props := {
  noticeType : option string;
  siteUrl : option string;
  props_onDismissClick : option Handler;
}.

(** The object [getNoticeValues] builds; [onDismissClick] is there only
    when the component got one. *)
Record NoticeValues := {
  icon : string;
  status : string;
  text : string;
  showDismiss : bool;
  onDismissClick : option Handler;
}.

Definition set_icon (v : string) (n : NoticeValues) : NoticeValues :=
  {| icon := v; status := status n; text := text n;
     showDismiss := showDismiss n; onDismissClick := onDismissClick n |}.

Definition set_status (v : string) (n : NoticeValues) : NoticeValues :=
  {| icon := icon n; status := v; text := text n;
     showDismiss := showDismiss n; onDismissClick := onDismissClick n |}.

Definition set_text (v : string) (n : NoticeValues) : NoticeValues :=
  {| icon := icon n; status := status n; text := v;
     showDismiss := showDismiss n; onDismissClick := onDismissClick n |}.

Definition set_dismiss (h : Handler) (n : NoticeValues) : NoticeValues :=
  {| icon := icon n; status := status n; text := text n;
     showDismiss := true; onDismissClick := Some h |}.

(** [this.props.noticeType === t] *)
Definition noticeType_is (p : Props) (t : string) : bool :=
  bool_decide (noticeType p = Some t).

(** [None] is the [undefined] of the final [return;]. *)
Definition getNoticeValues (p : Props) : option NoticeValues :=
  let noticeValues :=
    {| icon := "trash"; status := "is-warning";
       text := translate "That's not a real web site";
       showDismiss := false; onDismissClick := None |} in
  let noticeValues :=
    match props_onDismissClick p with
    | Some h => set_dismiss h noticeValues
    | None => noticeValues
    end in
  if noticeType_is p "notExists" then Some noticeValues
  else if noticeType_is p "isDotCom" then
    Some (set_text (translate "That's is a WordPress.com site, so you don't need to connect it")
            (set_icon "block" noticeValues))
  else if noticeType_is p "notWordPress" then
    Some (set_text (translate "That's not a WordPress site") (set_icon "block" noticeValues))
  else if noticeType_is p "notActiveJetpack" then
    Some (set_text (translate "Jetpack is deactivated") (set_icon "block" noticeValues))
  else if noticeType_is p "jetpackIsDisconnected" then
    Some (set_text (translate "Jetpack is disconnected") (set_icon "link-break" noticeValues))
  else if noticeType_is p "jetpackIsValid" then
    Some (set_text (translate "Jetpack is connected")
            (set_icon "plugins" (set_status "is-success" noticeValues)))
  else if noticeType_is p "notJetpack" then
    Some (set_text (translate "Can't find Jetpack")
            (set_icon "status" (set_status "is-noticeType" noticeValues)))
  else if noticeType_is p "alreadyConnected" then
    Some (set_text (translate "This site is already connected!")
            (set_icon "status" (set_status "is-success" noticeValues)))
  else if noticeType_is p "wordpress.com" then
    Some (set_icon "status" (set_status "is-warning"
            (set_text (translate "I think that's us ¯\_(ツ)_/¯") noticeValues)))
  else if noticeType_is p "authorizeError" then
    Some (set_icon "notice" (set_status "is-error"
            (set_text (translate "Error authorizing your site. Please contact support.")
               noticeValues)))
  else None.

(** What [render] returns: the container with the notice, or null. *)
Inductive Element :=
  | Div (className : string) (child : Element)
  | Notice (values : NoticeValues).

Definition render (p : Props) : option Element :=
  match getNoticeValues p with
  | Some values => Some (Div "jetpack-connect__notices-container" (Notice values))
  | None => None
  end.

End Component.

(** The notice types [getNoticeValues] knows. *)
Definition known_types : list string :=
  ["notExists"; "isDotCom"; "notWordPress"; "notActiveJetpack";
   "jetpackIsDisconnected"; "jetpackIsValid"; "notJetpack"; "alreadyConnected";
   "wordpress.com"; "authorizeError"]%string.

End JetpackConnectNotices.

(** ** The action creators of the exporter *)

Module exporter.

(** What [forSiteId] and [get( selectedSite, 'ID' )] can hold. *)
Inductive JsId :=
  | IdUndefined
  | IdNull
  | IdNumber (n : Z).

Global Instance JsId_eq_dec : EqDecision JsId.
Proof. solve_decision. Defined.

Record Site := { ID : Z }.

(** The argument of [startExport]: nothing, a string, or a truthy value
    that is no string, such as an event object, with its [typeof]. *)
Inductive PostTypeArg :=
  | PtUndefined
  | PtNull
  | PtString (s : string)
  | PtOther (type_of : string).

(** What the server answers to [startExport] (an error or not) and to
    [getExport]. *)
Inductive StartReply := StartError | StartOk.

Inductive PollReply :=
  | PollError
  | PollResponse (status : string) (attachment_url : string).

(** The surroundings: the Redux state with its selectors, the settings
    sent to and the data received from the server, and [i18n.translate]. *)
Class ExporterEnv := {
  State : Type;
  Settings : Type;
  SettingsData : Type;
  SettingValue : Type;
  translate : string -> string;
  prepareExportRequest : State -> PostTypeArg -> Settings;
  getSelectedSite : State -> option Site;
  forSiteId : State -> JsId;
}.

Section Actions.
Context `{ExporterEnv}.

Inductive Action :=
  | SET_EXPORT_POST_TYPE (postType : PostTypeArg)
  | SET_EXPORTER_ADVANCED_SETTING (section setting : string) (value : SettingValue)
  | FETCH_EXPORTER_ADVANCED_SETTINGS (siteId : Z)
  | RECEIVE_EXPORTER_ADVANCED_SETTINGS (siteId : Z) (data : SettingsData)
  | REQUEST_START_EXPORT (siteId : Z) (advancedSettings : Settings)
  | REPLY_START_EXPORT
  | FAIL_EXPORT
  | COMPLETE_EXPORT.

(** What the action creators do to their surroundings, in order. *)
Inductive Event :=
  | Dispatch (a : Action)
  | NoticeError (text button href : string)
  | NoticeSuccess (text button href : string)
  | CallGetExportSettings (siteId : Z)
  | CallStartExport (siteId : Z) (advancedSettings : Settings)
  | CallGetExport (siteId : Z) (offset : Z)
  | SetTimeout (timeout : Z)
  | DebugStart (r : StartReply)
  | DebugPoll (r : PollReply).

Definition ERROR_START_EXPORT : string :=
  translate "We had a problem starting your export. Please check your internet connection and try again.".
Definition ERROR_POLLING : string :=
  translate "We had a problem checking the status of your export. Please check your internet connection and try again.".
Definition ERROR_PROCESSING : string :=
  translate "We had a problem processing your export. Please contact support.".

Definition setPostType (postType : PostTypeArg) : Action :=
  SET_EXPORT_POST_TYPE postType.

Definition setAdvancedSetting (section setting : string) (value : SettingValue) : Action :=
  SET_EXPORTER_ADVANCED_SETTING section setting value.

Definition receiveExportSettings (siteId : Z) (data : SettingsData) : Action :=
  RECEIVE_EXPORTER_ADVANCED_SETTINGS siteId data.

Definition replyStartExport : Action := REPLY_START_EXPORT.

(** An action creator that shows a notice before it returns its action. *)
Definition failExport (failureReason : string) : list Event * Action :=
  ([NoticeError failureReason (translate "Get Help") "/help/contact"], FAIL_EXPORT).

Definition completeExport (downloadURL : string) : list Event * Action :=
  ([NoticeSuccess
      (translate "Your export was successful! A download link has also been sent to your email.")
      (translate "Download") downloadURL],
   COMPLETE_EXPORT).

(** [dispatch( creator( .. ) )]: the creator runs, then its action is
    dispatched. *)
Definition dispatch (made : list Event * Action) : list Event :=
  fst made ++ [Dispatch (snd made)].

(** [fetchExportSettings( siteId )], run by the thunk middleware; [reply]
    is what [getExportSettings] resolves with, [None] when it does not. *)
Definition fetchExportSettings (siteId : Z) (reply : option SettingsData) : list Event :=
  Dispatch (FETCH_EXPORTER_ADVANCED_SETTINGS siteId)
  :: CallGetExportSettings siteId
  :: match reply with
     | Some settings => [Dispatch (receiveExportSettings siteId settings)]
     | None => []
     end.

(** [get( selectedSite, 'ID' )] *)
Definition get_ID (selectedSite : option Site) : JsId :=
  match selectedSite with
  | Some site => IdNumber (ID site)
  | None => IdUndefined
  end.

(** The thunk of [ensureHasSettings]; [inl tt] is the TypeError of
    [selectedSite.ID] on null. *)
Definition ensureHasSettings (state : State) (reply : option SettingsData)
  : unit + list Event :=
  let selectedSite := getSelectedSite state in
  let currentDataSiteId := forSiteId state in
  if bool_decide (get_ID selectedSite <> currentDataSiteId) then
    match selectedSite with
    | Some site => inr (fetchExportSettings (ID site) reply)
    | None => inl tt
    end
  else inr [].

(** [poll( timeout )] with the answers the server gives to the successive
    [getExport] calls; when they run out the last call is unanswered. *)
Fixpoint poll (siteId : Z) (timeout : Z) (replies : list PollReply) : list Event :=
  SetTimeout timeout
  :: CallGetExport siteId 0
  :: match replies with
     | [] => []
     | pollReply :: later =>
         DebugPoll pollReply
         :: match pollReply with
            | PollError => dispatch (failExport ERROR_POLLING)
            | PollResponse status attachment_url =>
                if String.eqb status "running" then poll siteId 500 later
                else if String.eqb status "finished" then
                  dispatch (completeExport attachment_url)
                else dispatch (failExport ERROR_PROCESSING)
            end
     end.

(** The thunk [startExport] returns; [startReply] is [None] while the
    server has not answered. *)
Definition startExport_thunk (postType : PostTypeArg) (state : State)
    (startReply : option StartReply) (pollReplies : list PollReply) : list Event :=
  let advancedSettings := prepareExportRequest state postType in
  match getSelectedSite state with
  | None => []
  | Some site =>
      Dispatch (REQUEST_START_EXPORT (ID site) advancedSettings)
      :: CallStartExport (ID site) advancedSettings
      :: match startReply with
         | None => []
         | Some startError =>
             DebugStart startError
             :: match startError with
                | StartError => dispatch (failExport ERROR_START_EXPORT)
                | StartOk => Dispatch replyStartExport :: poll (ID site) 0 pollReplies
                end
         end
  end.

(** [inl] is the message of the Error thrown. *)
Definition startExport (postType : PostTypeArg)
  : string + (State -> option StartReply -> list PollReply -> list Event) :=
  match postType with
  | PtOther type_of =>
      inl ("Expected postType parameter of startExport action creator to "
           +:+ "be a string, got " +:+ type_of +:+ ". Did you pass the action "
           +:+ "creator directly to an event handler? Wrap it to make first param blank: "
           +:+ "onClick={ ( event ) => startExport() }")
  | _ => inr (startExport_thunk postType)
  end.

(** The actions dispatched, in order. *)
Definition dispatched (evs : list Event) : list Action :=
  omap (fun ev => match ev with Dispatch a => Some a | _ => None end) evs.

(** The notices shown. *)
Definition notices (evs : list Event) : list Event :=
  List.filter (fun ev => match ev with
                         | NoticeError _ _ _ | NoticeSuccess _ _ _ => true
                         | _ => false
                         end) evs.

(** The delays handed to [setTimeout]. *)
Definition timeouts (evs : list Event) : list Z :=
  omap (fun ev => match ev with SetTimeout t => Some t | _ => None end) evs.

(** The number of [getExport] calls. *)
Definition polls (evs : list Event) : nat :=
  length (List.filter (fun ev => match ev with CallGetExport _ _ => true | _ => false end) evs).

(** The actions that end an export. *)
Definition is_terminal (a : Action) : bool :=
  match a with FAIL_EXPORT | COMPLETE_EXPORT => true | _ => false end.

(** What the first answer that is not [running] makes the thunk do. *)
Definition settling (r : PollReply) : list Event * Action :=
  match r with
  | PollError => failExport ERROR_POLLING
  | PollResponse status attachment_url =>
      if String.eqb status "finished" then completeExport attachment_url
      else failExport ERROR_PROCESSING
  end.

End Actions.

Definition is_running (r : PollReply) : bool :=
  match r with
  | PollResponse status _ => String.eqb status "running"
  | PollError => false
  end.

(** How many answers say [running] before the first one that does not. *)
Fixpoint leading_running (replies : list PollReply) : nat :=
  match replies with
  | r :: later => if is_running r then S (leading_running later) else 0
  | [] => 0
  end.

(** A server environment for the examples: states are the selected site
    and the site the settings are for. *)
Definition sample_exporter : ExporterEnv :=
  {| State := option Site * JsId;
     Settings := PostTypeArg;
     SettingsData := string;
     SettingValue := string;
     translate := fun s => s;
     prepareExportRequest := fun _ postType => postType;
     getSelectedSite := fst;
     forSiteId := snd |}.

End exporter.

(** ** Vocabulary of the statements *)

(** The elements kept by a predicate that also sees the position counted
    from [t]: what a filter whose predicate reads the clock computes. *)
Fixpoint filter_at (q : nat -> Obj -> bool) (t : nat) (objs : list Obj) : list Obj :=
  match objs with
  | [] => []
  | o :: r => if q t o then o :: filter_at q (S t) r else filter_at q (S t) r
  end.

(** The world after [n] more readings of the clock. *)
Definition advance `{Env} (n : nat) (w : World) : World :=
  {| store := store w; ticks := ticks w + n; next_ref := next_ref w;
     trace := trace w; log := log w |}.

(** [now - lifetime] is computed without rounding: the difference of the
    two doubles is an integer of at most 53 bits. *)
Definition exact_difference (now lifetime : Z) : Prop :=
  (- 9007199254740992 <= now - lifetime <= 9007199254740992)%Z.

(** The age test in the words of the specification. *)
Definition older_than (now lifetime : Z) (e : IndexEntry) : Prop :=
  (now - timestamp e > lifetime)%Z.

Definition is_removal (op : StoreOp) : bool :=
  match op with OpRemoveItem _ => true | _ => false end.

Definition is_write (op : StoreOp) : bool :=
  match op with OpSetItem _ _ | OpRemoveItem _ => true | _ => false end.

(** The world once [getItem( RECORDS_LIST_KEY )] has answered. *)
Definition loaded `{Env} (w : World) : World :=
  {| store := store w; ticks := ticks w;
     next_ref := next_ref w + length (default [] (records_list (store w)));
     trace := trace w ++ [OpGetItem RECORDS_LIST_KEY]; log := log w |}.

(** The world once the store has rejected [op]. *)
Definition refused `{Env} (op : StoreOp) (w : World) : World :=
  {| store := store w; ticks := ticks w; next_ref := next_ref w;
     trace := trace w ++ [op]; log := log w |}.

(** The array [getAll] hands out in [w]. *)
Definition loaded_records `{Env} (w : World) : option (list Obj) :=
  localforage.deserialize (next_ref w) <$> records_list (store w).

(** The store operations issued between [w] and [w']. *)
Definition issued `{Env} (w w' : World) : list StoreOp :=
  drop (length (trace w)) (trace w').

(** The entry [addItem( k, psk )] appends when it is called in [w]. *)
Definition added_entry `{Env} (k : string) (psk : option string) (w : World)
  : IndexEntry :=
  {| key := k; timestamp := Date_now_reading (ticks w);
     pageSeriesKey := if cacheIndex.truthy psk then psk else None |}.

(** A store that rejects every write of the index, the clock standing at
    [T]. *)
Definition rewrite_fails_env : Env :=
  sample_env (fun _ => 300000000%Z)
    (fun _ op => match op with OpSetItem _ _ => true | _ => false end).

Definition stuck_world : @World rewrite_fails_env :=
  sample_world (H := rewrite_fails_env)
    (Some [entry "sync-record-a" 300000000 None;
           entry "sync-record-b" 40800000 None])
    sample_payloads.

(** A store that rejects the removal of [sync-record-a] only. *)
Definition one_removal_fails_env : Env :=
  sample_env (fun n => (1000 + Z.of_nat n)%Z)
    (fun _ op => match op with
                 | OpRemoveItem k => String.eqb k "sync-record-a"
                 | _ => false
                 end).

Definition half_cleared_world : @World one_removal_fails_env :=
  sample_world (H := one_removal_fails_env)
    (Some [entry "sync-record-a" 1000 None; entry "sync-record-b" 990 None])
    sample_payloads.

Definition b_removed : RecordsPartition :=
  {| removedRecords := [{| ref := 1; fields := entry "sync-record-b" 40800000 None |}];
     retainedRecords := [{| ref := 0; fields := entry "sync-record-a" 300000000 None |}] |}.

Definition tags_page : gmap string (@ReqValue reliable_env) :=
  <["path" := "/tags"%string]> ∅.

(** The clock never runs backwards. *)
Definition clock_monotone `{Env} : Prop :=
  forall i j, i <= j -> (Date_now_reading i <= Date_now_reading j)%Z.

(** The index lists its entries oldest first, none of them stamped after
    the next reading of the clock. *)
Definition time_ordered `{Env} (w : World) : Prop :=
  StronglySorted Z.le (map timestamp (index_list w)) /\
  Forall (fun e => (timestamp e <= Date_now_reading (ticks w))%Z) (index_list w).

(** The index [addItem( k, psk )] writes when it is called in [w]. *)
Definition index_after_add `{Env} (k : string) (psk : option string) (w : World)
  : list IndexEntry :=
  filter (fun e => key e <> k) (index_list w) ++ [added_entry k psk w].

(** The objects [getAll] hands out in [w], none for an absent index. *)
Definition objects `{Env} (w : World) : list Obj :=
  default [] (loaded_records w).

(** The test of [dropElders] on the object examined at the [t]-th reading
    of the clock. *)
Definition elder_at `{Env} (lifetime : option Z) (t : nat) (o : Obj) : bool :=
  cacheIndex.is_elder (Date_now_reading t) lifetime o.

Global Instance older_than_dec now lifetime e : Decision (older_than now lifetime e) :=
  Z_gt_dec _ _.

(** The store after the removals of [ks], all of them carried out. *)
Definition forget_all `{Env} (ks : list string) (s : Store) : Store :=
  foldl (fun s k => localforage.forget k s) s ks.

(** The world once the store has carried out the removals of [ks]. *)
Definition after_removals `{Env} (ks : list string) (w : World) : World :=
  {| store := forget_all ks (store w); ticks := ticks w; next_ref := next_ref w;
     trace := trace w ++ map OpRemoveItem ks; log := log w |}.

(** The world once [removeRecordsByList] has gone through on a list that
    is not empty. *)
Definition after_bulk_removal `{Env} (data : RecordsPartition) (w : World) : World :=
  let ks := map (fun item => key (fields item)) (removedRecords data) in
  let kept := localforage.serialize (retainedRecords data) in
  {| store := {| records_list := Some kept;
                 payloads := payloads (forget_all ks (store w)) |};
     ticks := ticks w; next_ref := next_ref w;
     trace := trace w ++ map OpRemoveItem ks ++ [OpSetItem RECORDS_LIST_KEY kept];
     log := log w ++ [LogRecordsRemoved (length (removedRecords data) + 1)] |}.

(** The lifetime [pruneRecordsFrom] works with. *)
Definition resolved_lifetime `{Env} (lifetime : option Lifetime) : option Z :=
  match default (LString LIFETIME) lifetime with
  | LNumber n => Some n
  | LString s => ms s
  end.

(** The selection of [pickPageSeries]. *)
Definition entry_in_series (psk : string) (e : IndexEntry) : bool :=
  bool_decide (pageSeriesKey e = Some psk).

Definition in_series (psk : string) (o : Obj) : bool :=
  entry_in_series psk (fields o).

(** The group key [clearPageSeries] derives from the request. *)
Definition series_key `{Env} (reqParams : gmap string ReqValue) : string :=
  generateKey (lodash.omit reqParams "next_page").

(** The partition [pickPageSeries] makes of the index of [w]. *)
Definition series_partition `{Env} (psk : string) (w : World) : RecordsPartition :=
  {| removedRecords := List.filter (in_series psk) (objects w);
     retainedRecords := List.filter (fun o => negb (in_series psk o)) (objects w) |}.

(** The world once [keys()] has answered. *)
Definition listed `{Env} (w : World) : World :=
  {| store := store w; ticks := ticks w; next_ref := next_ref w;
     trace := trace w ++ [OpKeys]; log := log w |}.

(** The keys [clearAll] takes for record payloads in [w]. *)
Definition syncHandlerKeys `{Env} (w : World) : list string :=
  List.filter isSyncRecordKey (localforage.stored_keys (store w)).

(** ** Lists, references and filters *)

Section Lists.

Lemma List_filter_bool_decide {A} (P : A -> Prop) `{!forall x, Decision (P x)}
    (l : list A) :
  List.filter (fun x => bool_decide (P x)) l = filter P l.
Proof.
  induction l as [|x l IH]; [done|].
  cbn [List.filter]. rewrite filter_cons, IH.
  destruct (decide (P x)) as [HP|HP].
  - by rewrite bool_decide_eq_true_2.
  - by rewrite bool_decide_eq_false_2.
Qed.

Lemma serialize_deserialize b l :
  localforage.serialize (localforage.deserialize b l) = l.
Proof.
  revert b. induction l as [|e l IH]; intros b; [done|].
  cbn. f_equal. apply IH.
Qed.

Lemma deserialize_refs b l :
  map ref (localforage.deserialize b l) = seq b (length l).
Proof.
  revert b. induction l as [|e l IH]; intros b; [done|].
  cbn. f_equal. apply IH.
Qed.

Lemma deserialize_length b l : length (localforage.deserialize b l) = length l.
Proof. rewrite <- (length_map ref), deserialize_refs. apply length_seq. Qed.

Lemma deserialize_NoDup_refs b l : NoDup (map ref (localforage.deserialize b l)).
Proof. rewrite deserialize_refs. apply NoDup_seq. Qed.

Lemma NoDup_refs_NoDup (objs : list Obj) : NoDup (map ref objs) -> NoDup objs.
Proof. apply NoDup_fmap_1. Qed.

Lemma serialize_filter (p : IndexEntry -> bool) (objs : list Obj) :
  localforage.serialize (List.filter (fun o => p (fields o)) objs)
  = List.filter p (localforage.serialize objs).
Proof.
  unfold localforage.serialize.
  induction objs as [|o objs IH]; [done|].
  cbn. destruct (p (fields o)); cbn; by rewrite IH.
Qed.

Lemma filter_at_const (p : Obj -> bool) t objs :
  filter_at (fun _ => p) t objs = List.filter p objs.
Proof.
  revert t. induction objs as [|o r IH]; intros t; [done|].
  cbn. by rewrite IH.
Qed.

Lemma filter_at_ext (q q' : nat -> Obj -> bool) t objs :
  (forall i o, objs !! i = Some o -> q (t + i) o = q' (t + i) o) ->
  filter_at q t objs = filter_at q' t objs.
Proof.
  revert t. induction objs as [|o r IH]; intros t Hq; [done|].
  pose proof (Hq 0 o eq_refl) as H0. rewrite Nat.add_0_r in H0.
  cbn. rewrite H0, (IH (S t)); [done|].
  intros i x Hx. replace (S t + i) with (t + S i) by lia. by apply Hq.
Qed.

Lemma elem_of_filter_at q t objs o :
  o ∈ filter_at q t objs <-> exists i, objs !! i = Some o /\ q (t + i) o = true.
Proof.
  revert t. induction objs as [|x r IH]; intros t.
  - cbn. split; [by intros ?%elem_of_nil | by intros (i & ? & _)].
  - cbn [filter_at]. split.
    + intros Hin.
      assert (Hcase : (q t x = true /\ o = x) \/ o ∈ filter_at q (S t) r).
      { destruct (q t x) eqn:E; [|by right].
        apply elem_of_cons in Hin as [->|?]; [by left | by right]. }
      destruct Hcase as [[Hq ->]|Hr].
      * exists 0. by rewrite Nat.add_0_r.
      * apply IH in Hr as (i & Hi & Hq). exists (S i). split; [done|].
        by replace (t + S i) with (S t + i) by lia.
    + intros (i & Hi & Hq). destruct i as [|i].
      * cbn in Hi. injection Hi as ->. rewrite Nat.add_0_r in Hq.
        rewrite Hq. apply elem_of_cons. by left.
      * cbn in Hi.
        assert (o ∈ filter_at q (S t) r) as Hr.
        { apply IH. exists i. split; [done|].
          by replace (S t + i) with (t + S i) by lia. }
        destruct (q t x); [apply elem_of_cons; by right | done].
Qed.

Lemma filter_at_refs_subset q t objs o :
  o ∈ filter_at q t objs -> o ∈ objs.
Proof.
  intros (i & Hi & _)%elem_of_filter_at. by eapply list_elem_of_lookup_2.
Qed.

Lemma filter_at_partition q t objs :
  filter_at q t objs ++ filter_at (fun i o => negb (q i o)) t objs ≡ₚ objs.
Proof.
  revert t. induction objs as [|o r IH]; intros t; [done|].
  cbn. destruct (q t o); cbn.
  - by rewrite IH.
  - rewrite <- Permutation_middle. by rewrite IH.
Qed.

(** On an array of pairwise distinct objects, [difference] of the array
    and of a selection of it is the complementary selection. *)
Lemma difference_filter_at q t objs :
  NoDup (map ref objs) ->
  lodash.difference (Some objs) (filter_at q t objs)
  = filter_at (fun i o => negb (q i o)) t objs.
Proof.
  unfold lodash.difference.
  revert t. induction objs as [|o r IH]; intros t Hnd; [done|].
  apply NoDup_cons in Hnd as [Hfresh Hnd].
  assert (Hnotin : forall vs, (forall v, v ∈ vs -> v ∈ r) ->
            existsb (fun v => Nat.eqb (ref o) (ref v)) vs = false).
  { intros vs Hvs. apply not_true_is_false. intros Hex.
    apply existsb_exists in Hex as (v & Hv & Heq).
    apply Nat.eqb_eq in Heq. apply Hfresh. rewrite Heq.
    apply list_elem_of_fmap_2. apply Hvs. by apply list_elem_of_In. }
  assert (Hrest : forall vs,
            List.filter (fun x => negb (existsb (fun v => Nat.eqb (ref x) (ref v)) (o :: vs))) r
            = List.filter (fun x => negb (existsb (fun v => Nat.eqb (ref x) (ref v)) vs)) r).
  { intros vs. apply List.filter_ext_in. intros x Hx. cbn.
    destruct (Nat.eqb (ref x) (ref o)) eqn:E; [|done].
    apply Nat.eqb_eq in E. exfalso. apply Hfresh. rewrite <- E.
    apply list_elem_of_fmap_2. by apply list_elem_of_In. }
  cbn [filter_at List.filter]. destruct (q t o) eqn:Hq; cbn [negb].
  - cbn [existsb]. rewrite Nat.eqb_refl. cbn [orb negb].
    etrans; [apply (Hrest (filter_at q (S t) r)) | by apply IH].
  - rewrite Hnotin by (intros v; apply filter_at_refs_subset).
    cbn. f_equal. by apply IH.
Qed.

End Lists.

(** ** Reading the index *)

Section Reading.
Context `{Env}.

Lemma getAll_ok w :
  store_fails (length (trace w)) (OpGetItem RECORDS_LIST_KEY) = false ->
  cacheIndex.getAll w = (Fulfilled (loaded_records w), loaded w).
Proof.
  intros Hok. unfold cacheIndex.getAll, localforage.getItem_records,
    localforage.issue, loaded_records, loaded.
  rewrite Hok. destruct (records_list (store w)) as [l|]; cbn; [done|].
  by rewrite Nat.add_0_r.
Qed.

Lemma getAll_fail w :
  store_fails (length (trace w)) (OpGetItem RECORDS_LIST_KEY) = true ->
  cacheIndex.getAll w
  = (Rejected (OpGetItem RECORDS_LIST_KEY), refused (OpGetItem RECORDS_LIST_KEY) w).
Proof.
  intros Hko. unfold cacheIndex.getAll, localforage.getItem_records,
    localforage.issue, refused.
  by rewrite Hko.
Qed.

Lemma issued_app w w' ops : trace w' = trace w ++ ops -> issued w w' = ops.
Proof. unfold issued. intros ->. by rewrite drop_app_length. Qed.

Lemma dropMatches_null k : cacheIndex.dropMatches k None = [].
Proof. done. Qed.

Lemma dropMatches_serialize k w :
  localforage.serialize (cacheIndex.dropMatches k (loaded_records w))
  = filter (fun e => key e <> k) (index_list w).
Proof.
  unfold cacheIndex.dropMatches, loaded_records, index_list, lodash.filter.
  destruct (records_list (store w)) as [l|]; cbn; [|done].
  rewrite <- List_filter_bool_decide.
  rewrite <- (serialize_deserialize (next_ref w) l) at 2.
  rewrite <- serialize_filter. f_equal.
  apply List.filter_ext. intros o.
  unfold lodash.negate, lodash.matchesProperty_key.
  by rewrite bool_decide_not.
Qed.

Lemma getAllExcluding_ok k w :
  store_fails (length (trace w)) (OpGetItem RECORDS_LIST_KEY) = false ->
  cacheIndex.getAllExcluding k w
  = (Fulfilled (cacheIndex.dropMatches k (loaded_records w)), loaded w).
Proof.
  intros Hok. unfold cacheIndex.getAllExcluding, settle_with, then_.
  by rewrite getAll_ok.
Qed.

Lemma getAllExcluding_fail k w :
  store_fails (length (trace w)) (OpGetItem RECORDS_LIST_KEY) = true ->
  cacheIndex.getAllExcluding k w
  = (Rejected (OpGetItem RECORDS_LIST_KEY), refused (OpGetItem RECORDS_LIST_KEY) w).
Proof.
  intros Hko. unfold cacheIndex.getAllExcluding, settle_with, then_.
  by rewrite getAll_fail.
Qed.

(** C7 (as amended): [getAll] answers with the value persisted under
    [records-list]: the current index sequence, or the store's null value
    when the index was never written, not an empty sequence.  It issues one
    read and leaves the store as it was.  The readers built on it take that
    null for an empty sequence. *)
Theorem getAll_returns_persisted_value (w : World) :
  store (snd (cacheIndex.getAll w)) = store w /\
  issued w (snd (cacheIndex.getAll w)) = [OpGetItem RECORDS_LIST_KEY] /\
  (store_fails (length (trace w)) (OpGetItem RECORDS_LIST_KEY) = false ->
     fst (cacheIndex.getAll w) = Fulfilled (loaded_records w) /\
     (forall l, records_list (store w) = Some l ->
        exists objs, loaded_records w = Some objs /\ localforage.serialize objs = l) /\
     (records_list (store w) = None ->
        loaded_records w = None /\
        forall k, fst (cacheIndex.getAllExcluding k w) = Fulfilled [])).
Proof.
  destruct (store_fails (length (trace w)) (OpGetItem RECORDS_LIST_KEY)) eqn:Hf.
  - rewrite getAll_fail by done. cbn. split; [done|]. split; [|done].
    by apply issued_app.
  - rewrite getAll_ok by done. cbn. split; [done|]. split; [by apply issued_app|].
    intros _. split; [done|]. split.
    + intros l Hl. unfold loaded_records. rewrite Hl. cbn.
      eexists. split; [done|]. apply serialize_deserialize.
    + intros Hnone. unfold loaded_records. rewrite Hnone. split; [done|].
      intros k. rewrite getAllExcluding_ok by done. cbn.
      unfold loaded_records. by rewrite Hnone.
Qed.

(** C8: [getAllExcluding( k )] answers with the index without the entries
    whose key is [k]: no entry of the answer has key [k], every other entry
    is there, unchanged and in the same order, and an index without such an
    entry comes back whole.  The store is left as it was. *)
Theorem getAllExcluding_correct (k : string) (w : World) :
  store (snd (cacheIndex.getAllExcluding k w)) = store w /\
  issued w (snd (cacheIndex.getAllExcluding k w)) = [OpGetItem RECORDS_LIST_KEY] /\
  (store_fails (length (trace w)) (OpGetItem RECORDS_LIST_KEY) = false ->
     exists objs,
       fst (cacheIndex.getAllExcluding k w) = Fulfilled objs /\
       localforage.serialize objs = filter (fun e => key e <> k) (index_list w) /\
       (forall e, e ∈ localforage.serialize objs -> key e <> k) /\
       (forall e, e ∈ index_list w -> key e <> k -> e ∈ localforage.serialize objs) /\
       sublist (localforage.serialize objs) (index_list w) /\
       ((forall e, e ∈ index_list w -> key e <> k) ->
          localforage.serialize objs = index_list w)).
Proof.
  destruct (store_fails (length (trace w)) (OpGetItem RECORDS_LIST_KEY)) eqn:Hf.
  - rewrite getAllExcluding_fail by done. cbn. split; [done|]. split; [|done].
    by apply issued_app.
  - rewrite getAllExcluding_ok by done. cbn. split; [done|].
    split; [by apply issued_app|]. intros _.
    eexists. split; [done|]. rewrite dropMatches_serialize.
    split; [done|]. split; [|split; [|split]].
    + by intros e [? _]%list_elem_of_filter.
    + intros e He Hk. by apply list_elem_of_filter.
    + apply sublist_filter.
    + intros Hall. induction (index_list w) as [|e l IH]; [done|].
      rewrite filter_cons_True by (apply Hall; left).
      f_equal. apply IH. intros e' He'. apply Hall. by right.
Qed.

End Reading.

(** ** Adding and removing one entry *)

Section Writing.
Context `{Env}.

Lemma store_ok_first w op :
  store_ok_after w -> store_fails (length (trace w)) op = false.
Proof. intros Hok. by apply Hok. Qed.

Lemma store_ok_later w w' ops :
  store_ok_after w -> trace w' = trace w ++ ops -> store_ok_after w'.
Proof.
  intros Hok Htr i op Hi. apply Hok.
  rewrite Htr, length_app in Hi. lia.
Qed.

Lemma serialize_app l1 l2 :
  localforage.serialize (l1 ++ l2) = localforage.serialize l1 ++ localforage.serialize l2.
Proof. apply map_app. Qed.

(** Whatever the store does, one [addItem] leaves the payloads alone and
    either leaves the index as it was or replaces it by the old one without
    the entries of that key, followed by the fresh entry. *)
Lemma addItem_cases k psk w :
  payloads (store (snd (cacheIndex.addItem k psk w))) = payloads (store w) /\
  ((fst (cacheIndex.addItem k psk w) <> Fulfilled tt /\
    records_list (store (snd (cacheIndex.addItem k psk w))) = records_list (store w)) \/
   (fst (cacheIndex.addItem k psk w) = Fulfilled tt /\
    records_list (store (snd (cacheIndex.addItem k psk w)))
    = Some (filter (fun e => key e <> k) (index_list w) ++ [added_entry k psk w]))).
Proof.
  unfold cacheIndex.addItem, then_.
  destruct (store_fails (length (trace w)) (OpGetItem RECORDS_LIST_KEY)) eqn:Hget.
  - rewrite getAllExcluding_fail by done. cbn. split; [done|]. by left.
  - rewrite getAllExcluding_ok by done. cbn.
    unfold localforage.setItem_records, localforage.issue. cbn.
    match goal with |- context [store_fails ?n ?op] =>
      destruct (store_fails n op) eqn:Hset end; cbn.
    + split; [done|]. by left.
    + split; [done|]. right. split; [done|].
      by rewrite serialize_app, dropMatches_serialize.
Qed.

Lemma addItem_ok k psk w :
  store_ok_after w ->
  fst (cacheIndex.addItem k psk w) = Fulfilled tt /\
  records_list (store (snd (cacheIndex.addItem k psk w)))
  = Some (filter (fun e => key e <> k) (index_list w) ++ [added_entry k psk w]).
Proof.
  intros Hok. unfold cacheIndex.addItem, then_.
  rewrite getAllExcluding_ok by by apply store_ok_first.
  cbn. unfold localforage.setItem_records, localforage.issue. cbn.
  rewrite Hok by (rewrite length_app; cbn; lia). cbn.
  by rewrite serialize_app, dropMatches_serialize.
Qed.

Lemma unique_keys_after_add k e l :
  key e = k -> unique_keys l ->
  unique_keys (filter (fun e => key e <> k) l ++ [e]).
Proof.
  unfold unique_keys. intros Hk Hl. rewrite map_app. apply NoDup_app.
  split; [|split].
  - eapply sublist_NoDup; [exact Hl|].
    apply (fmap_sublist key), sublist_filter.
  - intros x Hx Hx'. cbn in Hx'. apply list_elem_of_singleton in Hx'.
    apply list_elem_of_fmap in Hx as (y & -> & Hy).
    apply list_elem_of_filter in Hy as [Hy _]. congruence.
  - cbn. apply NoDup_singleton.
Qed.

Lemma addItem_unique k psk w :
  unique_keys (index_list w) ->
  unique_keys (index_list (snd (cacheIndex.addItem k psk w))).
Proof.
  intros Hu. destruct (addItem_cases k psk w) as [_ [[_ Hsame]|[_ Hnew]]].
  - unfold index_list in *. by rewrite Hsame.
  - unfold index_list at 1. rewrite Hnew. cbn.
    by apply unique_keys_after_add.
Qed.

Lemma one_entry_after_add k e l :
  key e = k ->
  filter (fun e' => key e' = k) (filter (fun e' => key e' <> k) l ++ [e]) = [e].
Proof.
  intros Hk. rewrite filter_app.
  rewrite (filter_cons_True _ e []) by done. rewrite filter_nil.
  replace (filter (fun e' => key e' = k) (filter (fun e' => key e' <> k) l))
    with (@nil IndexEntry); [done|].
  symmetry. induction l as [|x l IH]; [done|].
  rewrite (filter_cons (fun e' => key e' <> k)).
  destruct (decide (key x <> k)) as [Hne|_]; [|done].
  by rewrite filter_cons_False.
Qed.

(** C1: from an index with at most one entry per key (an absent index
    included), every sequence of [addItem] calls leaves at most one entry
    per key, whichever of the store operations fail.  A call that goes
    through persists the old index without the entries of that key,
    followed by one fresh entry stamped with the current time: from any
    index at all, the key then has exactly that one entry. *)
Theorem addItem_keeps_keys_unique
    (calls : list (string * option string)) (k : string) (psk : option string)
    (w : World) :
  (unique_keys (index_list w) -> unique_keys (index_list (addItems calls w))) /\
  (store_ok_after w ->
     fst (cacheIndex.addItem k psk w) = Fulfilled tt /\
     records_list (store (snd (cacheIndex.addItem k psk w)))
     = Some (filter (fun e => key e <> k) (index_list w) ++ [added_entry k psk w]) /\
     filter (fun e => key e = k) (index_list (snd (cacheIndex.addItem k psk w)))
     = [added_entry k psk w] /\
     timestamp (added_entry k psk w) = Date_now_reading (ticks w)).
Proof.
  split.
  - revert w. induction calls as [|[k' psk'] calls IH]; intros w Hu; [done|].
    cbn [addItems]. apply IH. by apply addItem_unique.
  - intros Hok. destruct (addItem_ok k psk w Hok) as [Hout Hidx].
    split; [done|]. split; [done|]. split; [|done].
    unfold index_list at 1. rewrite Hidx. cbn.
    by apply one_entry_after_add.
Qed.

Lemma removeItem_run k w :
  store_fails (length (trace w)) (OpGetItem RECORDS_LIST_KEY) = false ->
  cacheIndex.removeItem k w
  = localforage.setItem_records (cacheIndex.dropMatches k (loaded_records w))
      (debug (LogRemoving k) (loaded w)).
Proof.
  intros Hget. unfold cacheIndex.removeItem, then_.
  by rewrite getAllExcluding_ok.
Qed.

(** C9: [removeItem( k )] persists the index without the entries of key
    [k] and touches nothing else in the store: every payload, the one
    stored under [k] included, stays where it is, and no removal is ever
    issued to the store. *)
Theorem removeItem_keeps_payloads (k : string) (w : World) :
  payloads (store (snd (cacheIndex.removeItem k w))) = payloads (store w) /\
  (forall k', k' <> RECORDS_LIST_KEY ->
     localforage.lookup (store (snd (cacheIndex.removeItem k w))) k'
     = localforage.lookup (store w) k') /\
  Forall (fun op => is_removal op = false) (issued w (snd (cacheIndex.removeItem k w))) /\
  (store_ok_after w ->
     fst (cacheIndex.removeItem k w) = Fulfilled tt /\
     records_list (store (snd (cacheIndex.removeItem k w)))
     = Some (filter (fun e => key e <> k) (index_list w))).
Proof.
  assert (Hpay : payloads (store (snd (cacheIndex.removeItem k w))) = payloads (store w)
                 /\ Forall (fun op => is_removal op = false)
                       (issued w (snd (cacheIndex.removeItem k w)))).
  { destruct (store_fails (length (trace w)) (OpGetItem RECORDS_LIST_KEY)) eqn:Hget.
    - unfold cacheIndex.removeItem, then_. rewrite getAllExcluding_fail by done.
      cbn. split; [done|]. erewrite issued_app by done. by repeat constructor.
    - rewrite removeItem_run by done.
      unfold localforage.setItem_records, localforage.issue. cbn.
      match goal with |- context [store_fails ?n ?op] =>
        destruct (store_fails n op) eqn:Hset end; cbn.
      + split; [done|]. erewrite issued_app by (cbn; by rewrite <- app_assoc).
        by repeat constructor.
      + split; [done|]. erewrite issued_app by (cbn; by rewrite <- app_assoc).
        by repeat constructor. }
  destruct Hpay as [Hpay Hops].
  split; [done|]. split; [|split; [done|]].
  - intros k' Hk'. unfold localforage.lookup.
    rewrite !decide_False by done. by rewrite Hpay.
  - intros Hok. rewrite removeItem_run by by apply store_ok_first.
    unfold localforage.setItem_records, localforage.issue. cbn.
    rewrite Hok by (rewrite length_app; cbn; lia). cbn.
    by rewrite dropMatches_serialize.
Qed.

End Writing.

(** ** Selecting by age *)

Section Age.
Context `{Env}.

Lemma advance_0 w : advance 0 w = w.
Proof. destruct w. unfold advance. cbn. by rewrite Nat.add_0_r. Qed.

Lemma filter_each_clock lifetime objs w :
  lodash.filter_each
    (fun rec w0 => let '(now, w0') := Date_now w0 in
                   (cacheIndex.is_elder now lifetime rec, w0'))
    objs w
  = (filter_at (elder_at lifetime) (ticks w) objs, advance (length objs) w).
Proof.
  revert w. induction objs as [|o r IH]; intros w.
  - cbn. by rewrite advance_0.
  - cbn [lodash.filter_each filter_at length]. unfold Date_now at 1.
    rewrite IH. cbn [ticks]. unfold elder_at at 1 3.
    f_equal. unfold advance. cbn. f_equal. lia.
Qed.

Lemma objects_refs w : NoDup (map ref (objects w)).
Proof.
  unfold objects, loaded_records.
  destruct (records_list (store w)); cbn; [apply deserialize_NoDup_refs | constructor].
Qed.

Lemma objects_serialize w : localforage.serialize (objects w) = index_list w.
Proof.
  unfold objects, loaded_records, index_list.
  destruct (records_list (store w)); cbn; [apply serialize_deserialize | done].
Qed.

Lemma objects_length w : length (objects w) = length (index_list w).
Proof. rewrite <- objects_serialize. unfold localforage.serialize. by rewrite length_map. Qed.

Lemma difference_objects q t w :
  lodash.difference (loaded_records w) (filter_at q t (objects w))
  = filter_at (fun i o => negb (q i o)) t (objects w).
Proof.
  pose proof (objects_refs w) as Hnd. unfold objects in *.
  destruct (loaded_records w) as [objs|]; cbn in *; [|done].
  by apply difference_filter_at.
Qed.

Lemma dropElders_run lifetime w0 w :
  ticks w = ticks w0 ->
  cacheIndex.dropElders lifetime (loaded_records w0) w
  = ({| removedRecords := filter_at (elder_at lifetime) (ticks w0) (objects w0);
        retainedRecords :=
          filter_at (fun t o => negb (elder_at lifetime t o)) (ticks w0) (objects w0) |},
     advance (length (index_list w0)) w).
Proof.
  intros Ht. unfold cacheIndex.dropElders.
  assert (lodash.filter_eff (loaded_records w0)
            (fun rec w1 => let '(now, w0') := Date_now w1 in
                           (cacheIndex.is_elder now lifetime rec, w0')) w
          = (filter_at (elder_at lifetime) (ticks w0) (objects w0),
             advance (length (index_list w0)) w)) as ->.
  { rewrite <- objects_length. unfold objects, lodash.filter_eff.
    destruct (loaded_records w0) as [objs|].
    - by rewrite filter_each_clock, Ht.
    - cbn. by rewrite advance_0. }
  by rewrite difference_objects.
Qed.

Lemma dropOlderThan_ok lifetime w :
  store_fails (length (trace w)) (OpGetItem RECORDS_LIST_KEY) = false ->
  cacheIndex.dropOlderThan lifetime w
  = (Fulfilled
       {| removedRecords := filter_at (elder_at lifetime) (ticks w) (objects w);
          retainedRecords :=
            filter_at (fun t o => negb (elder_at lifetime t o)) (ticks w) (objects w) |},
     advance (length (index_list w)) (loaded w)).
Proof.
  intros Hget. unfold cacheIndex.dropOlderThan, settle_with, then_.
  rewrite getAll_ok by done. by rewrite (dropElders_run lifetime w (loaded w)).
Qed.

Lemma dropOlderThan_fail lifetime w :
  store_fails (length (trace w)) (OpGetItem RECORDS_LIST_KEY) = true ->
  cacheIndex.dropOlderThan lifetime w
  = (Rejected (OpGetItem RECORDS_LIST_KEY), refused (OpGetItem RECORDS_LIST_KEY) w).
Proof.
  intros Hget. unfold cacheIndex.dropOlderThan, settle_with, then_.
  by rewrite getAll_fail.
Qed.

Lemma elder_at_older_than l t o :
  elder_at (Some l) t o = true <-> older_than (Date_now_reading t) l (fields o).
Proof.
  unfold elder_at, cacheIndex.is_elder, older_than.
  rewrite Z.ltb_lt. lia.
Qed.

Lemma elder_at_bool_decide l t o :
  elder_at (Some l) t o = bool_decide (older_than (Date_now_reading t) l (fields o)).
Proof.
  destruct (elder_at (Some l) t o) eqn:E; symmetry.
  - apply bool_decide_eq_true_2. by apply elder_at_older_than.
  - apply bool_decide_eq_false_2. rewrite <- elder_at_older_than. congruence.
Qed.

Lemma filter_at_steady (p : IndexEntry -> Prop) `{H0 : !forall e, Decision (p e)}
    (q : nat -> Obj -> bool) t objs :
  (forall i o, objs !! i = Some o -> q (t + i) o = bool_decide (p (fields o))) ->
  localforage.serialize (filter_at q t objs) = filter p (localforage.serialize objs).
Proof.
  intros Hq.
  rewrite (filter_at_ext q (fun _ o => bool_decide (p (fields o))) t objs) by done.
  rewrite filter_at_const.
  etrans; [apply (serialize_filter (fun e => @bool_decide (p e) (H0 e)))|].
  apply List_filter_bool_decide.
Qed.

(** C4: [dropOlderThan( L )] splits the index in two: as long as the
    subtraction [Date.now() - L] is exact for the readings of the call, an
    entry is among the removed ones exactly when the clock reading taken
    for it minus its timestamp exceeds [L], and among the retained ones
    otherwise.  Together the two lists are the index, entry for entry, no
    object is in both, and the store is only read.  When the clock stands
    still during the call the two lists are the index filtered by
    [now - timestamp > L] and by its negation. *)
Theorem dropOlderThan_partitions (L : Z) (w : World) :
  store (snd (cacheIndex.dropOlderThan (Some L) w)) = store w /\
  issued w (snd (cacheIndex.dropOlderThan (Some L) w)) = [OpGetItem RECORDS_LIST_KEY] /\
  (store_fails (length (trace w)) (OpGetItem RECORDS_LIST_KEY) = false ->
   (forall i, i < length (index_list w) ->
      exact_difference (Date_now_reading (ticks w + i)) L) ->
   exists data,
     fst (cacheIndex.dropOlderThan (Some L) w) = Fulfilled data /\
     (forall i o, objects w !! i = Some o ->
        (o ∈ removedRecords data
         <-> older_than (Date_now_reading (ticks w + i)) L (fields o)) /\
        (o ∈ retainedRecords data
         <-> ~ older_than (Date_now_reading (ticks w + i)) L (fields o))) /\
     removedRecords data ++ retainedRecords data ≡ₚ objects w /\
     localforage.serialize (removedRecords data)
       ++ localforage.serialize (retainedRecords data) ≡ₚ index_list w /\
     (forall o, o ∈ removedRecords data -> o ∉ retainedRecords data) /\
     (forall now,
        (forall i, i < length (index_list w) -> Date_now_reading (ticks w + i) = now) ->
        localforage.serialize (removedRecords data)
        = filter (older_than now L) (index_list w) /\
        localforage.serialize (retainedRecords data)
        = filter (fun e => ~ older_than now L e) (index_list w))).
Proof.
  destruct (store_fails (length (trace w)) (OpGetItem RECORDS_LIST_KEY)) eqn:Hget.
  { rewrite dropOlderThan_fail by done. cbn. split; [done|]. split; [|done].
    by apply issued_app. }
  rewrite dropOlderThan_ok by done. cbn [fst snd].
  split; [done|]. split; [by apply issued_app|]. intros _ _.
  eexists. split; [done|]. cbn [removedRecords retainedRecords].
  pose proof (NoDup_refs_NoDup _ (objects_refs w)) as Hnd.
  assert (Hmem : forall q i o, objects w !! i = Some o ->
            (o ∈ filter_at q (ticks w) (objects w) <-> q (ticks w + i) o = true)).
  { intros q i o Hi. rewrite elem_of_filter_at. split.
    - intros (j & Hj & Hq). by rewrite (NoDup_lookup _ i j o Hnd Hi Hj).
    - intros Hq. by exists i. }
  split; [|split; [|split; [|split]]].
  - intros i o Hi. rewrite !Hmem by done. rewrite <- elder_at_older_than.
    split; [done|]. rewrite negb_true_iff. by destruct (elder_at _ _ _).
  - apply filter_at_partition.
  - rewrite <- serialize_app, <- objects_serialize.
    unfold localforage.serialize. apply fmap_Permutation, filter_at_partition.
  - intros o Hrem Hret.
    apply elem_of_filter_at in Hrem as (i & Hi & Hq).
    apply elem_of_filter_at in Hret as (j & Hj & Hnq).
    rewrite (NoDup_lookup _ i j o Hnd Hi Hj) in Hq. by rewrite Hq in Hnq.
  - intros now Hnow. rewrite <- objects_serialize. split.
    + apply filter_at_steady with (p := older_than now L). intros i o Hi.
      rewrite elder_at_bool_decide, Hnow; [done|].
      rewrite <- objects_length. by eapply lookup_lt_Some.
    + apply filter_at_steady with (p := fun e => ~ older_than now L e). intros i o Hi.
      rewrite elder_at_bool_decide, Hnow, bool_decide_not; [done|].
      rewrite <- objects_length. by eapply lookup_lt_Some.
Qed.

End Age.

(** ** Removing in bulk *)

Section Bulk.
Context `{Env}.

Lemma call_each_cons {A} (p : Promise A) ps w :
  call_each (p :: ps) w
  = (fst (p w) :: fst (call_each ps (snd (p w))), snd (call_each ps (snd (p w)))).
Proof. cbn. destruct (p w) as [o w1]. cbn. by destruct (call_each ps w1). Qed.

Lemma removeItem_frame k w :
  trace (snd (localforage.removeItem k w)) = trace w ++ [OpRemoveItem k] /\
  (forall k', k' <> k ->
     payloads (store (snd (localforage.removeItem k w))) !! k' = payloads (store w) !! k') /\
  (k <> RECORDS_LIST_KEY ->
     records_list (store (snd (localforage.removeItem k w))) = records_list (store w)).
Proof.
  unfold localforage.removeItem, localforage.issue.
  destruct (store_fails _ _); cbn; [done|].
  split; [done|]. unfold localforage.forget. split.
  - intros k' Hk'. case_decide; cbn; [done|]. by rewrite lookup_delete_ne.
  - intros Hk. by rewrite decide_False.
Qed.

(** Whatever the store does, the removals of [ks] touch the keys of [ks]
    only. *)
Lemma call_each_removeItem_frame ks w :
  trace (snd (call_each (map localforage.removeItem ks) w))
  = trace w ++ map OpRemoveItem ks /\
  (forall k', k' ∉ ks ->
     payloads (store (snd (call_each (map localforage.removeItem ks) w))) !! k'
     = payloads (store w) !! k') /\
  (RECORDS_LIST_KEY ∉ ks ->
     records_list (store (snd (call_each (map localforage.removeItem ks) w)))
     = records_list (store w)).
Proof.
  revert w. induction ks as [|k ks IH]; intros w.
  - cbn. by rewrite app_nil_r.
  - cbn [map]. rewrite call_each_cons. cbn [snd].
    destruct (IH (snd (localforage.removeItem k w))) as (Htr & Hpay & Hidx).
    destruct (removeItem_frame k w) as (Htr1 & Hpay1 & Hidx1).
    split; [|split].
    + rewrite Htr, Htr1, <- app_assoc. done.
    + intros k' Hk'. apply not_elem_of_cons in Hk' as [Hne Hk'].
      rewrite Hpay by done. by apply Hpay1.
    + intros Hk. apply not_elem_of_cons in Hk as [Hne Hk].
      rewrite Hidx by done. apply Hidx1. congruence.
Qed.

Lemma call_each_removeItem_ok ks w :
  store_ok_after w ->
  call_each (map localforage.removeItem ks) w
  = (map (fun _ => Fulfilled tt) ks, after_removals ks w).
Proof.
  revert w. induction ks as [|k ks IH]; intros w Hok.
  - cbn. unfold after_removals. cbn. rewrite app_nil_r. by destruct w.
  - cbn [map]. rewrite call_each_cons.
    assert (localforage.removeItem k w = (Fulfilled tt, after_removals [k] w)) as ->.
    { unfold localforage.removeItem, localforage.issue.
      by rewrite store_ok_first. }
    cbn [fst snd]. rewrite IH.
    + cbn [fst snd]. f_equal. unfold after_removals. cbn.
      by rewrite <- app_assoc.
    + eapply store_ok_later; [exact Hok | done].
Qed.

Lemma forget_all_payloads ks s k' :
  payloads (forget_all ks s) !! k'
  = if decide (k' ∈ ks /\ k' <> RECORDS_LIST_KEY) then None else payloads s !! k'.
Proof.
  revert s. induction ks as [|k ks IH]; intros s.
  - cbn. rewrite decide_False; [done|]. intros [?%elem_of_nil _]. done.
  - cbn [forget_all foldl]. fold (forget_all ks (localforage.forget k s)).
    rewrite IH. unfold localforage.forget.
    destruct (decide (k' ∈ ks /\ k' <> RECORDS_LIST_KEY)) as [[Hin Hne]|Hnot].
    + rewrite decide_True; [done|]. split; [by right | done].
    + destruct (decide (k = RECORDS_LIST_KEY)) as [->|Hk]; cbn.
      * rewrite decide_False; [done|]. intros [Hin Hne].
        apply elem_of_cons in Hin as [?|?]; [done|]. by apply Hnot.
      * destruct (decide (k' = k)) as [->|Hk'].
        -- rewrite lookup_delete_eq. rewrite decide_True; [done|].
           split; [by left | done].
        -- rewrite lookup_delete_ne by done. rewrite decide_False; [done|].
           intros [Hin Hne]. apply elem_of_cons in Hin as [?|?]; [done|].
           by apply Hnot.
Qed.

Lemma forget_all_records_list ks s :
  RECORDS_LIST_KEY ∉ ks -> records_list (forget_all ks s) = records_list s.
Proof.
  revert s. induction ks as [|k ks IH]; intros s Hk; [done|].
  apply not_elem_of_cons in Hk as [Hne Hk].
  cbn [forget_all foldl]. fold (forget_all ks (localforage.forget k s)).
  rewrite IH by done. unfold localforage.forget. by rewrite decide_False.
Qed.

Lemma Promise_all_fulfilled {A} (l : list A) :
  Promise_all (map Fulfilled l) = Fulfilled l.
Proof. induction l as [|a l IH]; [done|]. cbn. by rewrite IH. Qed.

Lemma resolve_only_never_rejects {A} (p : Promise A) w e :
  fst (resolve_only p w) <> Rejected e.
Proof. unfold resolve_only. by destruct (p w) as [[?|?|] ?]. Qed.

(** Nothing to remove: the executor returns before it calls [resolve]. *)
Lemma removeRecordsByList_empty data w :
  removedRecords data = [] ->
  cacheIndex.removeRecordsByList data w = (Pending, debug LogNoRecords w).
Proof.
  intros Hnil. unfold cacheIndex.removeRecordsByList, resolve_only.
  by rewrite Hnil.
Qed.

(** The promise of [removeRecordsByList] is never rejected, whatever the
    store answers to the removals and to the write. *)
Lemma removeRecordsByList_never_rejects data w e :
  fst (cacheIndex.removeRecordsByList data w) <> Rejected e.
Proof. apply resolve_only_never_rejects. Qed.

Lemma removeRecordsByList_ok data w :
  store_ok_after w ->
  removedRecords data <> [] ->
  cacheIndex.removeRecordsByList data w = (Fulfilled tt, after_bulk_removal data w).
Proof.
  intros Hok Hne. unfold cacheIndex.removeRecordsByList, resolve_only.
  destruct (removedRecords data) as [|o removed] eqn:Hrem; [done|].
  cbn [length Nat.eqb].
  rewrite <- (map_map (fun item => key (fields item)) localforage.removeItem).
  rewrite call_each_removeItem_ok by done.
  unfold localforage.setItem_records, localforage.issue.
  rewrite store_ok_first
    by (eapply store_ok_later; [exact Hok | done]).
  unfold then_.
  change (map (fun _ : Obj => Fulfilled ()) (o :: removed) ++ [Fulfilled ()])
    with (map (fun _ : Obj => @Fulfilled unit ()) (o :: removed) ++ map Fulfilled [()]).
  rewrite <- (map_map (fun _ => ()) Fulfilled), <- map_app, Promise_all_fulfilled.
  f_equal. unfold after_bulk_removal, debug, after_removals. rewrite Hrem. cbn.
  by rewrite <- !app_assoc.
Qed.

Lemma filter_at_none q t objs :
  (forall i o, objs !! i = Some o -> q (t + i) o = false) ->
  filter_at q t objs = [].
Proof.
  intros Hq. rewrite (filter_at_ext q (fun _ _ => false)) by done.
  rewrite filter_at_const. clear Hq.
  induction objs as [|o r IH]; [done | exact IH].
Qed.

Lemma pruneRecordsFrom_unfold lifetime w :
  cacheIndex.pruneRecordsFrom lifetime w
  = then_ (cacheIndex.dropOlderThan (resolved_lifetime lifetime))
          cacheIndex.removeRecordsByList
          (debug (LogStartPrune (resolved_lifetime lifetime)) w).
Proof. done. Qed.

(** With no entry older than the lifetime, [pruneRecordsFrom] leaves the
    store as it was and issues no write and no removal; its promise is
    never fulfilled: it stays pending when the read goes through. *)
Lemma pruneRecordsFrom_nothing_old lifetime w :
  (forall i o, objects w !! i = Some o ->
     elder_at (resolved_lifetime lifetime) (ticks w + i) o = false) ->
  store (snd (cacheIndex.pruneRecordsFrom lifetime w)) = store w /\
  Forall (fun op => is_write op = false)
    (issued w (snd (cacheIndex.pruneRecordsFrom lifetime w))) /\
  (forall v, fst (cacheIndex.pruneRecordsFrom lifetime w) <> Fulfilled v) /\
  (store_fails (length (trace w)) (OpGetItem RECORDS_LIST_KEY) = false ->
     fst (cacheIndex.pruneRecordsFrom lifetime w) = Pending /\
     log (snd (cacheIndex.pruneRecordsFrom lifetime w))
     = log w ++ [LogStartPrune (resolved_lifetime lifetime); LogNoRecords]).
Proof.
  intros Hyoung. rewrite pruneRecordsFrom_unfold. unfold then_.
  set (w1 := debug (LogStartPrune (resolved_lifetime lifetime)) w).
  destruct (store_fails (length (trace w)) (OpGetItem RECORDS_LIST_KEY)) eqn:Hget.
  - rewrite dropOlderThan_fail by done. cbn.
    split; [done|]. split; [|done].
    erewrite issued_app by done. by repeat constructor.
  - rewrite dropOlderThan_ok by done.
    change (objects w1) with (objects w). change (ticks w1) with (ticks w).
    rewrite (filter_at_none (elder_at _)) by done.
    rewrite removeRecordsByList_empty by done. cbn.
    split; [done|]. split; [|split; [done|]].
    + erewrite issued_app by done. by repeat constructor.
    + intros _. split; [done|]. by rewrite <- app_assoc.
Qed.

End Bulk.

(** ** Clearing a page series *)

Section PageSeries.
Context `{Env}.

Lemma lodash_filter_objects (p : Obj -> bool) w :
  lodash.filter (loaded_records w) p = List.filter p (objects w).
Proof. unfold objects. by destruct (loaded_records w). Qed.

Lemma pickPageSeries_run psk w :
  cacheIndex.pickPageSeries psk (loaded_records w) = series_partition psk w.
Proof.
  unfold cacheIndex.pickPageSeries, series_partition.
  fold (in_series psk). rewrite lodash_filter_objects. f_equal.
  rewrite <- (filter_at_const (in_series psk) 0), difference_objects.
  apply (filter_at_const (fun o => negb (in_series psk o))).
Qed.

Lemma serialize_in_series psk w :
  localforage.serialize (List.filter (in_series psk) (objects w))
  = filter (fun e => pageSeriesKey e = Some psk) (index_list w).
Proof.
  etrans; [apply (serialize_filter (entry_in_series psk))|].
  rewrite objects_serialize. apply List_filter_bool_decide.
Qed.

Lemma serialize_not_in_series psk w :
  localforage.serialize (List.filter (fun o => negb (in_series psk o)) (objects w))
  = filter (fun e => pageSeriesKey e <> Some psk) (index_list w).
Proof.
  etrans; [apply (serialize_filter (fun e => negb (entry_in_series psk e)))|].
  rewrite objects_serialize, <- List_filter_bool_decide.
  apply List.filter_ext. intros e. unfold entry_in_series.
  by rewrite bool_decide_not.
Qed.

Lemma in_series_keys psk w :
  map (fun item => key (fields item)) (List.filter (in_series psk) (objects w))
  = map key (filter (fun e => pageSeriesKey e = Some psk) (index_list w)).
Proof.
  rewrite <- serialize_in_series. unfold localforage.serialize.
  by rewrite map_map.
Qed.

Lemma filter_all {A} (P : A -> Prop) `{!forall x, Decision (P x)} (l : list A) :
  (forall x, x ∈ l -> P x) -> filter P l = l.
Proof.
  intros Hall. induction l as [|x l IH]; [done|].
  rewrite filter_cons_True by (apply Hall; left).
  f_equal. apply IH. intros y Hy. apply Hall. by right.
Qed.

Lemma filter_nil_none {A} (P : A -> Prop) `{!forall x, Decision (P x)} (l : list A) x :
  filter P l = [] -> x ∈ l -> ~ P x.
Proof.
  intros Hnil Hx HP.
  assert (x ∈ filter P l) as Hin by by apply list_elem_of_filter.
  rewrite Hnil in Hin. by apply elem_of_nil in Hin.
Qed.

Lemma clearPageSeries_unfold reqParams w :
  store_fails (length (trace w)) (OpGetItem RECORDS_LIST_KEY) = false ->
  cacheIndex.clearPageSeries reqParams w
  = cacheIndex.removeRecordsByList (series_partition (series_key reqParams) w) (loaded w).
Proof.
  intros Hget. unfold cacheIndex.clearPageSeries, resolve_only at 1, then_, resolved.
  rewrite getAll_ok by done. fold (series_key reqParams).
  rewrite pickPageSeries_run.
  destruct (cacheIndex.removeRecordsByList _ _) as [[u|e|] w'] eqn:E; try done.
  exfalso. eapply removeRecordsByList_never_rejects. by rewrite E.
Qed.

Lemma clearPageSeries_ok reqParams w :
  store_ok_after w ->
  removedRecords (series_partition (series_key reqParams) w) <> [] ->
  cacheIndex.clearPageSeries reqParams w
  = (Fulfilled tt,
     after_bulk_removal (series_partition (series_key reqParams) w) (loaded w)).
Proof.
  intros Hok Hne. rewrite clearPageSeries_unfold by by apply store_ok_first.
  apply removeRecordsByList_ok; [|done].
  eapply store_ok_later; [exact Hok | done].
Qed.

Lemma clearPageSeries_nothing reqParams w :
  store_ok_after w ->
  removedRecords (series_partition (series_key reqParams) w) = [] ->
  cacheIndex.clearPageSeries reqParams w = (Pending, debug LogNoRecords (loaded w)).
Proof.
  intros Hok Hnil. rewrite clearPageSeries_unfold by by apply store_ok_first.
  by apply removeRecordsByList_empty.
Qed.

Lemma series_removed_nil psk w :
  removedRecords (series_partition psk w) = [] <->
  filter (fun e => pageSeriesKey e = Some psk) (index_list w) = [].
Proof.
  rewrite <- serialize_in_series. cbn. unfold localforage.serialize.
  split; [by intros -> | apply fmap_nil_inv].
Qed.

Lemma clearPageSeries_index reqParams w :
  store_ok_after w ->
  index_list (snd (cacheIndex.clearPageSeries reqParams w))
  = filter (fun e => pageSeriesKey e <> Some (series_key reqParams)) (index_list w).
Proof.
  intros Hok.
  destruct (decide (removedRecords (series_partition (series_key reqParams) w) = []))
    as [Hnil|Hne].
  - rewrite clearPageSeries_nothing by done. cbn.
    change (index_list (debug LogNoRecords (loaded w))) with (index_list w).
    symmetry. apply filter_all. intros e He.
    by apply (filter_nil_none _ _ _ (proj1 (series_removed_nil _ _) Hnil)).
  - rewrite clearPageSeries_ok by done. unfold index_list at 1. cbn.
    apply serialize_not_in_series.
Qed.

(** C6: with a store that works, [clearPageSeries( reqParams )] leaves as
    index the entries whose group key differs from the fingerprint of the
    request without [next_page], unchanged and in their order: the
    entries of other groups and the ungrouped ones all stay.  When some
    entry carries that fingerprint the promise is fulfilled, the remainder
    is persisted as the new index, a removal is issued for every evicted
    entry and none of them has a payload left, while the payloads under
    all other keys stay.  Requests that differ only in [next_page] do the
    same. *)
Theorem clearPageSeries_evicts_series
    (reqParams : gmap string ReqValue) (w : World) :
  store_ok_after w ->
  index_list (snd (cacheIndex.clearPageSeries reqParams w))
  = filter (fun e => pageSeriesKey e <> Some (series_key reqParams)) (index_list w) /\
  (forall e, e ∈ index_list w -> pageSeriesKey e <> Some (series_key reqParams) ->
     e ∈ index_list (snd (cacheIndex.clearPageSeries reqParams w))) /\
  (forall e, e ∈ index_list (snd (cacheIndex.clearPageSeries reqParams w)) ->
     pageSeriesKey e <> Some (series_key reqParams) /\ e ∈ index_list w) /\
  (forall k', k' <> RECORDS_LIST_KEY ->
     (forall e, e ∈ index_list w -> pageSeriesKey e = Some (series_key reqParams) ->
        key e <> k') ->
     localforage.lookup (store (snd (cacheIndex.clearPageSeries reqParams w))) k'
     = localforage.lookup (store w) k') /\
  ((exists e, e ∈ index_list w /\ pageSeriesKey e = Some (series_key reqParams)) ->
     fst (cacheIndex.clearPageSeries reqParams w) = Fulfilled tt /\
     records_list (store (snd (cacheIndex.clearPageSeries reqParams w)))
     = Some (filter (fun e => pageSeriesKey e <> Some (series_key reqParams))
               (index_list w)) /\
     (forall e p, e ∈ index_list w -> pageSeriesKey e = Some (series_key reqParams) ->
        localforage.lookup (store (snd (cacheIndex.clearPageSeries reqParams w))) (key e)
        <> Some (localforage.VPayload p)) /\
     issued w (snd (cacheIndex.clearPageSeries reqParams w))
     = OpGetItem RECORDS_LIST_KEY
       :: map OpRemoveItem
            (map key (filter (fun e => pageSeriesKey e = Some (series_key reqParams))
                        (index_list w)))
       ++ [OpSetItem RECORDS_LIST_KEY
             (filter (fun e => pageSeriesKey e <> Some (series_key reqParams))
                (index_list w))]) /\
  (forall v, cacheIndex.clearPageSeries (<["next_page" := v]> reqParams) w
             = cacheIndex.clearPageSeries reqParams w).
Proof.
  intros Hok. set (A := series_key reqParams).
  pose proof (clearPageSeries_index reqParams w Hok) as Hidx. fold A in Hidx.
  split; [done|]. split; [|split; [|split; [|split]]].
  - intros e He HA. rewrite Hidx. by apply list_elem_of_filter.
  - intros e He. rewrite Hidx in He. by apply list_elem_of_filter in He.
  - intros k' Hk' Hfree. unfold localforage.lookup. rewrite !decide_False by done.
    f_equal.
    destruct (decide (removedRecords (series_partition A w) = [])) as [Hnil|Hne].
    + by rewrite clearPageSeries_nothing.
    + rewrite clearPageSeries_ok by done.
      unfold after_bulk_removal, series_partition.
      cbn [snd store payloads removedRecords].
      rewrite forget_all_payloads, decide_False; [done|].
      intros [Hin _]. rewrite in_series_keys in Hin.
      apply list_elem_of_fmap in Hin as (e & -> & He).
      apply list_elem_of_filter in He as [HA He]. by apply (Hfree e).
  - intros (e0 & He0 & HA0).
    assert (removedRecords (series_partition A w) <> []) as Hne.
    { rewrite series_removed_nil. intros Hnil.
      by apply (filter_nil_none _ _ e0 Hnil). }
    rewrite clearPageSeries_ok by done. cbn [fst snd].
    split; [done|]. split; [|split].
    + cbn. by rewrite serialize_not_in_series.
    + intros e p He HA. unfold localforage.lookup. case_decide as Hk; [done|].
      unfold after_bulk_removal, series_partition.
      cbn [snd store payloads removedRecords].
      rewrite forget_all_payloads, decide_True; [done|].
      split; [|done]. rewrite in_series_keys. apply list_elem_of_fmap_2.
      by apply list_elem_of_filter.
    + erewrite issued_app; [reflexivity|]. cbn.
      rewrite in_series_keys, serialize_not_in_series. by rewrite <- app_assoc.
  - intros v. unfold cacheIndex.clearPageSeries, lodash.omit.
    by rewrite delete_insert_eq.
Qed.

End PageSeries.

(** ** Entries without a group key *)

Section Grouping.
Context `{Env}.

(** C10: a falsy [pageSeriesKey] argument (absent, [null] or the empty
    string) leaves no grouping field in the persisted entry: the call does
    what the call without the argument does.  Only a truthy argument is
    stored, as [pageSeriesKey].  An entry without the field is never in
    the selection of [pickPageSeries], so [clearPageSeries] keeps it in
    the index whatever the request is. *)
Theorem falsy_group_key_not_stored (k : string) (g : option string) (w : World) :
  (cacheIndex.truthy g = false ->
     cacheIndex.addItem k g w = cacheIndex.addItem k None w /\
     pageSeriesKey (added_entry k g w) = None) /\
  (cacheIndex.truthy g = true ->
     pageSeriesKey (added_entry k g w) = g /\ g <> None /\ g <> Some EmptyString) /\
  (store_ok_after w ->
     last (index_list (snd (cacheIndex.addItem k g w))) = Some (added_entry k g w)) /\
  (forall psk records o,
     pageSeriesKey (fields o) = None ->
     o ∉ removedRecords (cacheIndex.pickPageSeries psk records)) /\
  (forall reqParams w0 e,
     store_ok_after w0 -> e ∈ index_list w0 -> pageSeriesKey e = None ->
     e ∈ index_list (snd (cacheIndex.clearPageSeries reqParams w0))).
Proof.
  split; [|split; [|split; [|split]]].
  - intros Hg. split.
    + unfold cacheIndex.addItem. by rewrite Hg.
    + unfold added_entry. cbn. by rewrite Hg.
  - intros Hg. unfold added_entry. cbn. rewrite Hg.
    split; [done|]. destruct g as [s|]; [|done]. split; [done|].
    intros [= ->]. done.
  - intros Hok. destruct (addItem_ok k g w Hok) as [_ Hidx].
    unfold index_list. rewrite Hidx. cbn. apply last_snoc.
  - intros psk records o Hnone Hin. unfold cacheIndex.pickPageSeries in Hin.
    cbn in Hin. destruct records as [l|]; cbn in Hin; [|by apply elem_of_nil in Hin].
    apply list_elem_of_In, List.filter_In in Hin as [_ Hsel].
    apply bool_decide_eq_true_1 in Hsel. congruence.
  - intros reqParams w0 e Hok He Hnone.
    rewrite clearPageSeries_index by done.
    apply list_elem_of_filter. split; [congruence | done].
Qed.

End Grouping.

(** ** Clearing everything *)

Section ClearAll.
Context `{Env}.

Lemma strip_prefix_Some p s r : strip_prefix p s = Some r <-> s = p +:+ r.
Proof.
  revert s. induction p as [|a p IH]; intros s; cbn.
  - split; [by intros [= ->] | by intros ->].
  - destruct s as [|b s].
    + split; [done | by intros [=]].
    + destruct (Ascii.eqb a b) eqn:E.
      * apply Ascii.eqb_eq in E as ->. rewrite IH. split; [by intros -> | by intros [=]].
      * apply Ascii.eqb_neq in E. split; [done | intros [=]; congruence].
Qed.

Lemma isSyncRecordKey_shape k :
  isSyncRecordKey k = true <->
  exists id, k = "sync-record-" +:+ id /\ id <> EmptyString /\ all_word_chars id = true.
Proof.
  unfold isSyncRecordKey, SYNC_RECORD_REGEX_test. split.
  - destruct (strip_prefix "sync-record-" k) as [[|c rest]|] eqn:E; try done.
    intros Hw. apply strip_prefix_Some in E. by exists (String c rest).
  - intros (id & Hk & Hne & Hw). apply strip_prefix_Some in Hk. rewrite Hk.
    by destruct id.
Qed.

Lemma index_key_is_no_record_key : isSyncRecordKey RECORDS_LIST_KEY = false.
Proof. reflexivity. Qed.

Lemma elem_of_stored_keys s k :
  k <> RECORDS_LIST_KEY ->
  (k ∈ localforage.stored_keys s <-> is_Some (payloads s !! k)).
Proof.
  intros Hk. unfold localforage.stored_keys. rewrite elem_of_app. split.
  - intros [Hin|Hin].
    + destruct (records_list s); [|by apply elem_of_nil in Hin].
      by apply list_elem_of_singleton in Hin.
    + apply list_elem_of_In, List.filter_In in Hin as [Hin _].
      apply list_elem_of_In, list_elem_of_fmap in Hin as ((k0 & v) & -> & Hin).
      apply elem_of_map_to_list in Hin. by exists v.
  - intros [v Hv]. right. apply list_elem_of_In, List.filter_In. split.
    + apply list_elem_of_In, list_elem_of_fmap. exists (k, v).
      split; [done|]. by apply elem_of_map_to_list.
    + apply negb_true_iff. by apply String.eqb_neq.
Qed.

Lemma clearAll_fail w :
  store_fails (length (trace w)) OpKeys = true ->
  cacheIndex.clearAll w = (Rejected OpKeys, refused OpKeys w).
Proof.
  intros Hk. unfold cacheIndex.clearAll, then_, localforage.keys, localforage.issue.
  by rewrite Hk.
Qed.

Lemma clearAll_unfold w :
  store_fails (length (trace w)) OpKeys = false ->
  cacheIndex.clearAll w
  = (Promise_all
       (fst (call_each (map localforage.removeItem (syncHandlerKeys w)) (listed w))
        ++ [fst (localforage.removeItem RECORDS_LIST_KEY
                   (snd (call_each (map localforage.removeItem (syncHandlerKeys w))
                           (listed w))))]),
     debug (LogRecordsRemoved (length (syncHandlerKeys w) + 1))
       (snd (localforage.removeItem RECORDS_LIST_KEY
               (snd (call_each (map localforage.removeItem (syncHandlerKeys w))
                       (listed w)))))).
Proof.
  intros Hk. unfold cacheIndex.clearAll, then_, localforage.keys.
  unfold localforage.issue at 1. rewrite Hk.
  fold (listed w). fold (syncHandlerKeys w).
  destruct (call_each _ (listed w)) as [os w1]. cbn [fst snd].
  by destruct (localforage.removeItem RECORDS_LIST_KEY w1).
Qed.

Lemma clearAll_ok w :
  store_ok_after w ->
  fst (cacheIndex.clearAll w) = Fulfilled (map (fun _ => tt) (syncHandlerKeys w) ++ [tt]) /\
  store (snd (cacheIndex.clearAll w))
  = localforage.forget RECORDS_LIST_KEY (forget_all (syncHandlerKeys w) (store w)) /\
  trace (snd (cacheIndex.clearAll w))
  = trace w ++ OpKeys :: map OpRemoveItem (syncHandlerKeys w)
      ++ [OpRemoveItem RECORDS_LIST_KEY].
Proof.
  intros Hok. rewrite clearAll_unfold by by apply store_ok_first.
  assert (store_ok_after (listed w)) as Hok1
    by (eapply store_ok_later; [exact Hok | done]).
  rewrite call_each_removeItem_ok by done. cbn [fst snd].
  unfold localforage.removeItem, localforage.issue.
  rewrite store_ok_first by (eapply store_ok_later; [exact Hok1 | done]).
  cbn [fst snd]. split; [|split].
  - change [Fulfilled ()] with (map (@Fulfilled unit) [()]).
    rewrite <- (map_map (fun _ => ()) Fulfilled), <- map_app.
    apply Promise_all_fulfilled.
  - done.
  - cbn. by rewrite <- !app_assoc.
Qed.

(** C5: [clearAll] issues a removal for every stored key of the shape
    [sync-record-<identifier>], the identifier being one or more word
    characters, and for the index key [records-list]; with a store that
    works none of these keys holds anything afterwards.  Whatever the
    store does, every other key holds what it held. *)
Theorem clearAll_scope (w : World) (k : string) :
  (k <> RECORDS_LIST_KEY -> isSyncRecordKey k = false ->
     localforage.lookup (store (snd (cacheIndex.clearAll w))) k
     = localforage.lookup (store w) k) /\
  (store_ok_after w -> isSyncRecordKey k = true \/ k = RECORDS_LIST_KEY ->
     localforage.lookup (store (snd (cacheIndex.clearAll w))) k = None) /\
  (store_ok_after w ->
     (exists acks, fst (cacheIndex.clearAll w) = Fulfilled acks) /\
     issued w (snd (cacheIndex.clearAll w))
     = OpKeys :: map OpRemoveItem (syncHandlerKeys w) ++ [OpRemoveItem RECORDS_LIST_KEY]) /\
  (isSyncRecordKey k = true <->
     exists id, k = "sync-record-" +:+ id /\ id <> EmptyString /\ all_word_chars id = true).
Proof.
  split; [|split; [|split]].
  - intros Hk Hno. unfold localforage.lookup. rewrite !decide_False by done. f_equal.
    destruct (store_fails (length (trace w)) OpKeys) eqn:Hkeys.
    + by rewrite clearAll_fail.
    + rewrite clearAll_unfold by done. cbn [snd store debug].
      destruct (removeItem_frame RECORDS_LIST_KEY
                  (snd (call_each (map localforage.removeItem (syncHandlerKeys w))
                          (listed w)))) as (_ & Hpay & _).
      rewrite Hpay by done.
      destruct (call_each_removeItem_frame (syncHandlerKeys w) (listed w))
        as (_ & Hpay' & _).
      rewrite Hpay'; [done|].
      intros Hin. apply list_elem_of_In, List.filter_In in Hin as [_ Hyes].
      congruence.
  - intros Hok Hsel. destruct (clearAll_ok w Hok) as (_ & Hst & _).
    rewrite Hst. unfold localforage.lookup, localforage.forget at 1 2.
    rewrite (decide_True (P := RECORDS_LIST_KEY = RECORDS_LIST_KEY)) by done.
    cbn [records_list payloads].
    case_decide as Hk; [done|].
    destruct Hsel as [Hyes|?]; [|done].
    rewrite forget_all_payloads. case_decide as Hin; [done|].
    assert (payloads (store w) !! k = None) as ->; [|done].
    apply eq_None_not_Some. intros Hsome. apply Hin. split; [|done].
    apply list_elem_of_In, List.filter_In. split; [|done].
    apply list_elem_of_In. by apply elem_of_stored_keys.
  - intros Hok. destruct (clearAll_ok w Hok) as (Hout & _ & Htr).
    split; [by eexists|]. by apply issued_app.
  - apply isSyncRecordKey_shape.
Qed.

End ClearAll.

(** ** The defects of [removeRecordsByList] *)

Section Defects.

(** C2 (the code misses it): in a store that rejects the removal of
    [sync-record-a], [removeRecordsByList] still fulfils its promise: the
    removals it issues are left out of what it waits for.  The payload is
    still there, the index is rewritten.  [clearAll], which returns the
    promise of each removal, is rejected in the same store. *)
Theorem removeRecordsByList_hides_failed_removal :
  @store_fails removals_fail_env 0 (OpRemoveItem "sync-record-a") = true /\
  fst (cacheIndex.removeRecordsByList one_removed failing_world) = Fulfilled tt /\
  payloads (store (snd (cacheIndex.removeRecordsByList one_removed failing_world)))
    !! "sync-record-a"%string = Some "A"%string /\
  records_list (store (snd (cacheIndex.removeRecordsByList one_removed failing_world)))
  = Some [] /\
  trace (snd (cacheIndex.removeRecordsByList one_removed failing_world))
  = [OpRemoveItem "sync-record-a"; OpSetItem RECORDS_LIST_KEY []] /\
  fst (cacheIndex.pruneRecordsFrom (Some (LNumber 500)) failing_world) = Fulfilled tt /\
  fst (cacheIndex.clearAll failing_world) = Rejected (OpRemoveItem "sync-record-a").
Proof. repeat split; by vm_compute. Qed.

(** C3 (the code misses it): with nothing to remove,
    [removeRecordsByList] logs and leaves the store alone, but its promise
    never settles, and so does the one of [pruneRecordsFrom] on an index
    of fresh entries. *)
Theorem removeRecordsByList_empty_never_settles :
  fst (cacheIndex.removeRecordsByList none_removed fresh_world) = Pending /\
  store (snd (cacheIndex.removeRecordsByList none_removed fresh_world))
  = store fresh_world /\
  trace (snd (cacheIndex.removeRecordsByList none_removed fresh_world)) = [] /\
  log (snd (cacheIndex.removeRecordsByList none_removed fresh_world)) = [LogNoRecords] /\
  fst (cacheIndex.pruneRecordsFrom (Some (LString "2 days")) fresh_world) = Pending /\
  store (snd (cacheIndex.pruneRecordsFrom (Some (LString "2 days")) fresh_world))
  = store fresh_world /\
  trace (snd (cacheIndex.pruneRecordsFrom (Some (LString "2 days")) fresh_world))
  = [OpGetItem RECORDS_LIST_KEY].
Proof. repeat split; by vm_compute. Qed.

(** C7 (as the claim has it): on a store that was never written [getAll]
    is fulfilled with null, not with an empty sequence. *)
Lemma getAll_absent_index_is_null :
  fst (cacheIndex.getAll blank_world) = Fulfilled None /\
  fst (cacheIndex.getAll blank_world) <> Fulfilled (Some []).
Proof. split; [by vm_compute | by vm_compute]. Qed.

End Defects.

(** ** Scenarios *)

Section Scenarios.

Lemma reliable_store_ok (w : @World reliable_env) : store_ok_after w.
Proof. intros i op Hi. reflexivity. Defined.

(** [addItem( 'k1' )] then [addItem( 'k1', 'g1' )] on a blank store. *)
Lemma addItem_keeps_keys_unique_witness :
  unique_keys (index_list (addItems [("k1"%string, None); ("k1"%string, Some "g1"%string)]
                             blank_world)) /\
  index_list (addItems [("k1"%string, None); ("k1"%string, Some "g1"%string)] blank_world)
  = [entry "k1" 1001 (Some "g1"%string)] /\
  fst (cacheIndex.addItem "k1" (Some "g1"%string) blank_world) = Fulfilled tt.
Proof.
  destruct (addItem_keeps_keys_unique
              [("k1"%string, None); ("k1"%string, Some "g1"%string)]
              "k1" (Some "g1"%string) blank_world) as [Hseq Hone].
  split; [|split].
  - apply Hseq. constructor.
  - reflexivity.
  - exact (proj1 (Hone (reliable_store_ok blank_world))).
Defined.

Lemma getAll_returns_persisted_value_witness :
  fst (cacheIndex.getAll blank_world) = Fulfilled (loaded_records blank_world) /\
  loaded_records blank_world = None /\
  fst (cacheIndex.getAllExcluding "sync-record-a" blank_world) = Fulfilled [].
Proof.
  destruct (getAll_returns_persisted_value blank_world) as (_ & _ & Hread).
  destruct (Hread eq_refl) as (Hout & _ & Hnull).
  destruct (Hnull eq_refl) as [Hnone Hexcl].
  split; [exact Hout|]. split; [exact Hnone|]. apply Hexcl.
Defined.

Lemma getAllExcluding_correct_witness :
  exists objs,
    fst (cacheIndex.getAllExcluding "sync-record-a" fresh_world) = Fulfilled objs /\
    localforage.serialize objs = [entry "sync-record-b" 990 None].
Proof.
  destruct (getAllExcluding_correct "sync-record-a" fresh_world) as (_ & _ & Hread).
  destruct (Hread eq_refl) as (objs & Hout & Hser & _).
  exists objs. split; [exact Hout|]. rewrite Hser. reflexivity.
Defined.

Lemma removeItem_keeps_payloads_witness :
  localforage.lookup (store (snd (cacheIndex.removeItem "sync-record-a" fresh_world)))
    "sync-record-a"
  = Some (localforage.VPayload (H := reliable_env) "A"%string) /\
  records_list (store (snd (cacheIndex.removeItem "sync-record-a" fresh_world)))
  = Some [entry "sync-record-b" 990 None].
Proof.
  destruct (removeItem_keeps_payloads "sync-record-a" fresh_world)
    as (_ & Hframe & _ & Hok).
  split.
  - rewrite Hframe; [reflexivity | discriminate].
  - destruct (Hok (reliable_store_ok fresh_world)) as [_ Hidx].
    rewrite Hidx. reflexivity.
Defined.

(** The index [a] stamped [T], [b] stamped three days earlier, a lifetime
    of two days and the clock at [T]. *)
Lemma dropOlderThan_partitions_witness :
  exists data,
    fst (cacheIndex.dropOlderThan (Some 172800000%Z) aged_world) = Fulfilled data /\
    localforage.serialize (removedRecords data) = [entry "sync-record-b" 40800000 None] /\
    localforage.serialize (retainedRecords data) = [entry "sync-record-a" 300000000 None].
Proof.
  destruct (dropOlderThan_partitions 172800000%Z aged_world) as (_ & _ & Hread).
  assert (forall i, i < length (index_list aged_world) ->
            exact_difference (@Date_now_reading steady_env (ticks aged_world + i))
              172800000)
    as Hexact.
  { intros i Hi. unfold exact_difference. cbn. lia. }
  destruct (Hread eq_refl Hexact) as (data & Hout & _ & _ & _ & _ & Hsteady).
  destruct (Hsteady 300000000%Z (fun _ _ => eq_refl)) as [Hrem Hret].
  exists data. split; [exact Hout|]. split.
  - rewrite Hrem. reflexivity.
  - rewrite Hret. reflexivity.
Defined.

Lemma clearAll_scope_witness :
  localforage.lookup (store (snd (cacheIndex.clearAll fresh_world))) "settings"
  = Some (localforage.VPayload (H := reliable_env) "S"%string) /\
  localforage.lookup (store (snd (cacheIndex.clearAll fresh_world))) "sync-record-a" = None /\
  localforage.lookup (store (snd (cacheIndex.clearAll fresh_world))) RECORDS_LIST_KEY = None.
Proof.
  split; [|split].
  - destruct (clearAll_scope fresh_world "settings") as (Hframe & _).
    rewrite Hframe; [reflexivity | discriminate | reflexivity].
  - destruct (clearAll_scope fresh_world "sync-record-a") as (_ & Hgone & _).
    apply Hgone; [apply reliable_store_ok | left; reflexivity].
  - destruct (clearAll_scope fresh_world RECORDS_LIST_KEY) as (_ & Hgone & _).
    apply Hgone; [apply reliable_store_ok | right; reflexivity].
Defined.

Lemma clearPageSeries_evicts_series_witness :
  index_list (snd (cacheIndex.clearPageSeries (H := reliable_env) posts_page_2 series_world))
  = [entry "sync-record-b" 20 (Some "sync-record-/tags"%string);
     entry "sync-record-c" 30 None] /\
  fst (cacheIndex.clearPageSeries (H := reliable_env) posts_page_2 series_world) = Fulfilled tt.
Proof.
  destruct (clearPageSeries_evicts_series (H := reliable_env) posts_page_2 series_world
              (reliable_store_ok series_world)) as (Hidx & _ & _ & _ & Hsome & _).
  split.
  - rewrite Hidx. reflexivity.
  - apply Hsome. exists (entry "sync-record-a" 10 (Some "sync-record-/posts"%string)).
    split; [constructor | reflexivity].
Defined.

Lemma falsy_group_key_not_stored_witness :
  cacheIndex.addItem "sync-record-c" (Some EmptyString) fresh_world
  = cacheIndex.addItem "sync-record-c" None fresh_world /\
  pageSeriesKey (added_entry "sync-record-c" (Some "g"%string) fresh_world)
  = Some "g"%string /\
  entry "sync-record-c" 30 None
    ∈ index_list (snd (cacheIndex.clearPageSeries (H := reliable_env) posts_page_2 series_world)).
Proof.
  split; [|split].
  - destruct (falsy_group_key_not_stored "sync-record-c" (Some EmptyString) fresh_world)
      as (Hfalsy & _).
    exact (proj1 (Hfalsy eq_refl)).
  - destruct (falsy_group_key_not_stored "sync-record-c" (Some "g"%string) fresh_world)
      as (_ & Htruthy & _).
    exact (proj1 (Htruthy eq_refl)).
  - destruct (falsy_group_key_not_stored "sync-record-c" None fresh_world)
      as (_ & _ & _ & _ & Hkept).
    apply (Hkept posts_page_2 series_world);
      [apply reliable_store_ok | do 2 constructor; constructor | reflexivity].
Defined.

End Scenarios.

(** ** How single-entry writes end *)

Section Outcomes.
Context `{Env}.

(** X1: [addItem] issues one read and at most one write of the index, reads
    the clock once after the read, and never touches a payload.  It is
    fulfilled once the write has gone through; when the read or the write
    is rejected it is rejected with that operation and the store is as it
    was.  It never stays pending. *)
Theorem addItem_all_or_nothing (k : string) (psk : option string) (w : World) :
  payloads (store (snd (cacheIndex.addItem k psk w))) = payloads (store w) /\
  ((fst (cacheIndex.addItem k psk w) = Fulfilled tt /\
    records_list (store (snd (cacheIndex.addItem k psk w)))
    = Some (index_after_add k psk w) /\
    issued w (snd (cacheIndex.addItem k psk w))
    = [OpGetItem RECORDS_LIST_KEY; OpSetItem RECORDS_LIST_KEY (index_after_add k psk w)] /\
    ticks (snd (cacheIndex.addItem k psk w)) = S (ticks w)) \/
   (fst (cacheIndex.addItem k psk w) = Rejected (OpGetItem RECORDS_LIST_KEY) /\
    store (snd (cacheIndex.addItem k psk w)) = store w /\
    issued w (snd (cacheIndex.addItem k psk w)) = [OpGetItem RECORDS_LIST_KEY] /\
    ticks (snd (cacheIndex.addItem k psk w)) = ticks w) \/
   (fst (cacheIndex.addItem k psk w)
    = Rejected (OpSetItem RECORDS_LIST_KEY (index_after_add k psk w)) /\
    store (snd (cacheIndex.addItem k psk w)) = store w /\
    issued w (snd (cacheIndex.addItem k psk w))
    = [OpGetItem RECORDS_LIST_KEY; OpSetItem RECORDS_LIST_KEY (index_after_add k psk w)] /\
    ticks (snd (cacheIndex.addItem k psk w)) = S (ticks w))).
Proof.
  unfold cacheIndex.addItem, then_.
  destruct (store_fails (length (trace w)) (OpGetItem RECORDS_LIST_KEY)) eqn:Hget.
  - rewrite getAllExcluding_fail by done. cbn. split; [done|].
    right; left. repeat split. by apply issued_app.
  - rewrite getAllExcluding_ok by done. cbn.
    unfold localforage.setItem_records, localforage.issue. cbn.
    rewrite serialize_app, dropMatches_serialize. cbn.
    fold (added_entry k psk w). fold (index_after_add k psk w).
    match goal with |- context [store_fails ?n ?op] =>
      destruct (store_fails n op) eqn:Hset end; cbn.
    + split; [done|]. right; right. repeat split.
      apply issued_app. cbn. by rewrite <- app_assoc.
    + split; [done|]. left. repeat split.
      apply issued_app. cbn. by rewrite <- app_assoc.
Qed.

(** X2: [removeItem] ends the same way: fulfilled with the index rewritten
    without the key, or rejected with the failed read or write and the
    store as it was; it reads no clock and never stays pending. *)
Theorem removeItem_all_or_nothing (k : string) (w : World) :
  ticks (snd (cacheIndex.removeItem k w)) = ticks w /\
  ((fst (cacheIndex.removeItem k w) = Fulfilled tt /\
    records_list (store (snd (cacheIndex.removeItem k w)))
    = Some (filter (fun e => key e <> k) (index_list w)) /\
    issued w (snd (cacheIndex.removeItem k w))
    = [OpGetItem RECORDS_LIST_KEY;
       OpSetItem RECORDS_LIST_KEY (filter (fun e => key e <> k) (index_list w))]) \/
   (fst (cacheIndex.removeItem k w) = Rejected (OpGetItem RECORDS_LIST_KEY) /\
    store (snd (cacheIndex.removeItem k w)) = store w /\
    issued w (snd (cacheIndex.removeItem k w)) = [OpGetItem RECORDS_LIST_KEY]) \/
   (fst (cacheIndex.removeItem k w)
    = Rejected (OpSetItem RECORDS_LIST_KEY (filter (fun e => key e <> k) (index_list w))) /\
    store (snd (cacheIndex.removeItem k w)) = store w /\
    issued w (snd (cacheIndex.removeItem k w))
    = [OpGetItem RECORDS_LIST_KEY;
       OpSetItem RECORDS_LIST_KEY (filter (fun e => key e <> k) (index_list w))])).
Proof.
  destruct (store_fails (length (trace w)) (OpGetItem RECORDS_LIST_KEY)) eqn:Hget.
  - unfold cacheIndex.removeItem, then_. rewrite getAllExcluding_fail by done.
    cbn. split; [done|]. right; left. repeat split. by apply issued_app.
  - rewrite removeItem_run by done.
    unfold localforage.setItem_records, localforage.issue. cbn.
    rewrite dropMatches_serialize.
    match goal with |- context [store_fails ?n ?op] =>
      destruct (store_fails n op) eqn:Hset end; cbn.
    + split; [done|]. right; right. repeat split.
      apply issued_app. cbn. by rewrite <- app_assoc.
    + split; [done|]. left. repeat split.
      apply issued_app. cbn. by rewrite <- app_assoc.
Qed.

End Outcomes.

(** ** Calls in a row *)

Section Composition.
Context `{Env}.

Lemma addItem_extends k psk w :
  exists ops, trace (snd (cacheIndex.addItem k psk w)) = trace w ++ ops.
Proof.
  unfold cacheIndex.addItem, then_.
  destruct (store_fails (length (trace w)) (OpGetItem RECORDS_LIST_KEY)) eqn:Hget.
  - rewrite getAllExcluding_fail by done. by eexists.
  - rewrite getAllExcluding_ok by done. cbn.
    unfold localforage.setItem_records, localforage.issue. cbn.
    match goal with |- context [store_fails ?n ?op] => destruct (store_fails n op) end;
      cbn; rewrite <- app_assoc; by eexists.
Qed.

Lemma removeItem_extends k w :
  exists ops, trace (snd (cacheIndex.removeItem k w)) = trace w ++ ops.
Proof.
  destruct (store_fails (length (trace w)) (OpGetItem RECORDS_LIST_KEY)) eqn:Hget.
  - unfold cacheIndex.removeItem, then_. rewrite getAllExcluding_fail by done.
    by eexists.
  - rewrite removeItem_run by done.
    unfold localforage.setItem_records, localforage.issue. cbn.
    match goal with |- context [store_fails ?n ?op] => destruct (store_fails n op) end;
      cbn; rewrite <- app_assoc; by eexists.
Qed.

Lemma removeItem_ok k w :
  store_ok_after w ->
  fst (cacheIndex.removeItem k w) = Fulfilled tt /\
  records_list (store (snd (cacheIndex.removeItem k w)))
  = Some (filter (fun e => key e <> k) (index_list w)) /\
  payloads (store (snd (cacheIndex.removeItem k w))) = payloads (store w) /\
  store_ok_after (snd (cacheIndex.removeItem k w)).
Proof.
  intros Hok. split; [|split; [|split]].
  4: { destruct (removeItem_extends k w) as [ops Hops].
       by eapply store_ok_later. }
  all: rewrite removeItem_run by by apply store_ok_first.
  all: unfold localforage.setItem_records, localforage.issue; cbn.
  all: rewrite Hok by (rewrite length_app; cbn; lia); cbn; try done.
  by rewrite dropMatches_serialize.
Qed.

Lemma filter_twice {A} (P : A -> Prop) `{!forall x, Decision (P x)} (l : list A) :
  filter P (filter P l) = filter P l.
Proof. by apply list_filter_filter_l. Qed.

Lemma filter_after_add k e l :
  key e = k ->
  filter (fun e' => key e' <> k) (filter (fun e' => key e' <> k) l ++ [e])
  = filter (fun e' => key e' <> k) l.
Proof.
  intros Hk. rewrite filter_app, filter_twice.
  rewrite (filter_cons_False _ e []) by (intros Hne; by apply Hne).
  by rewrite filter_nil, app_nil_r.
Qed.

(** X3: Removing a key twice leaves the index the first removal wrote. *)
Theorem removeItem_idempotent (k : string) (w : World) :
  store_ok_after w ->
  fst (cacheIndex.removeItem k (snd (cacheIndex.removeItem k w))) = Fulfilled tt /\
  store (snd (cacheIndex.removeItem k (snd (cacheIndex.removeItem k w))))
  = store (snd (cacheIndex.removeItem k w)).
Proof.
  intros Hok. destruct (removeItem_ok k w Hok) as (_ & Hidx & Hpay & Hok1).
  destruct (removeItem_ok k _ Hok1) as (Hout & Hidx2 & Hpay2 & _).
  split; [done|].
  destruct (store (snd (cacheIndex.removeItem k (snd (cacheIndex.removeItem k w)))))
    as [i2 p2].
  destruct (store (snd (cacheIndex.removeItem k w))) as [i1 p1] eqn:E1.
  cbn in *. subst. f_equal.
  unfold index_list. rewrite E1. cbn. by rewrite filter_twice.
Qed.

(** X4: Removing a key the index does not list rewrites the index as it was;
    on a store whose index was never written this leaves an empty index
    behind, and [getAll] no longer answers null. *)
Theorem removeItem_of_unlisted_key (k : string) (w : World) :
  store_ok_after w ->
  (forall e, e ∈ index_list w -> key e <> k) ->
  fst (cacheIndex.removeItem k w) = Fulfilled tt /\
  records_list (store (snd (cacheIndex.removeItem k w))) = Some (index_list w) /\
  (records_list (store w) = None ->
     records_list (store (snd (cacheIndex.removeItem k w))) = Some [] /\
     fst (cacheIndex.getAll (snd (cacheIndex.removeItem k w))) = Fulfilled (Some [])).
Proof.
  intros Hok Hfree. destruct (removeItem_ok k w Hok) as (Hout & Hidx & _ & Hok1).
  split; [done|]. rewrite Hidx, filter_all by done. split; [done|].
  intros Hnone. unfold index_list. rewrite Hnone. cbn. split; [done|].
  rewrite getAll_ok by by apply store_ok_first. cbn.
  unfold loaded_records. rewrite Hidx, filter_all by done.
  unfold index_list. by rewrite Hnone.
Qed.

(** X5: [removeItem( k )] after [addItem( k, .. )] leaves the index without
    any entry of key [k]: exactly the index from before when it did not
    list [k].  The payloads are the same throughout. *)
Theorem addItem_then_removeItem (k : string) (psk : option string) (w : World) :
  store_ok_after w ->
  records_list (store (snd (cacheIndex.removeItem k (snd (cacheIndex.addItem k psk w)))))
  = Some (filter (fun e => key e <> k) (index_list w)) /\
  ((forall e, e ∈ index_list w -> key e <> k) ->
     records_list (store (snd (cacheIndex.removeItem k (snd (cacheIndex.addItem k psk w)))))
     = Some (index_list w)) /\
  payloads (store (snd (cacheIndex.removeItem k (snd (cacheIndex.addItem k psk w)))))
  = payloads (store w).
Proof.
  intros Hok. destruct (addItem_ok k psk w Hok) as [_ Hidx].
  destruct (addItem_cases k psk w) as [Hpay _].
  assert (store_ok_after (snd (cacheIndex.addItem k psk w))) as Hok1.
  { destruct (addItem_extends k psk w) as [ops Hops]. by eapply store_ok_later. }
  destruct (removeItem_ok k _ Hok1) as (_ & Hidx2 & Hpay2 & _).
  assert (records_list
            (store (snd (cacheIndex.removeItem k (snd (cacheIndex.addItem k psk w)))))
          = Some (filter (fun e => key e <> k) (index_list w))) as Hres.
  { rewrite Hidx2. unfold index_list at 1. rewrite Hidx. cbn.
    by rewrite filter_after_add. }
  split; [done|]. split.
  - intros Hfree. by rewrite Hres, filter_all.
  - by rewrite Hpay2.
Qed.

(** X6: After [clearAll] the index is absent again: [getAll] answers null and
    the next [addItem] writes an index of that one entry. *)
Theorem clearAll_then_addItem (k : string) (psk : option string) (w : World) :
  store_ok_after w ->
  fst (cacheIndex.getAll (snd (cacheIndex.clearAll w))) = Fulfilled None /\
  fst (cacheIndex.addItem k psk (snd (cacheIndex.clearAll w))) = Fulfilled tt /\
  records_list (store (snd (cacheIndex.addItem k psk (snd (cacheIndex.clearAll w)))))
  = Some [added_entry k psk (snd (cacheIndex.clearAll w))].
Proof.
  intros Hok. destruct (clearAll_ok w Hok) as (_ & Hst & Htr).
  assert (store_ok_after (snd (cacheIndex.clearAll w))) as Hok1
    by by eapply store_ok_later.
  assert (records_list (store (snd (cacheIndex.clearAll w))) = None) as Hnone.
  { rewrite Hst. unfold localforage.forget. by rewrite decide_True. }
  split; [|split].
  - rewrite getAll_ok by by apply store_ok_first. cbn.
    unfold loaded_records. by rewrite Hnone.
  - by apply addItem_ok.
  - destruct (addItem_ok k psk _ Hok1) as [_ Hidx]. rewrite Hidx.
    unfold index_list. by rewrite Hnone.
Qed.

End Composition.

(** ** What every operation keeps *)

Section Invariants.
Context `{Env}.

Lemma filter_at_sublist q t objs : sublist (filter_at q t objs) objs.
Proof.
  revert t. induction objs as [|o r IH]; intros t; [constructor|].
  cbn. destruct (q t o); [apply sublist_skip | apply sublist_cons]; apply IH.
Qed.

Lemma unique_keys_sublist l1 l2 : unique_keys l2 -> sublist l1 l2 -> unique_keys l1.
Proof.
  unfold unique_keys. intros Hu Hsub.
  eapply sublist_NoDup; [exact Hu|]. by apply (fmap_sublist key).
Qed.

Lemma serialize_filter_at_sublist q t w :
  sublist (localforage.serialize (filter_at q t (objects w))) (index_list w).
Proof.
  rewrite <- objects_serialize. unfold localforage.serialize.
  apply (fmap_sublist fields), filter_at_sublist.
Qed.

Lemma removeItem_records_list k w :
  records_list (store (snd (localforage.removeItem k w))) = records_list (store w) \/
  records_list (store (snd (localforage.removeItem k w))) = None.
Proof.
  unfold localforage.removeItem, localforage.issue.
  destruct (store_fails _ _); cbn; [by left|].
  unfold localforage.forget. case_decide; cbn; [by right | by left].
Qed.

Lemma call_each_removeItem_records_list ks w :
  records_list (store (snd (call_each (map localforage.removeItem ks) w)))
  = records_list (store w) \/
  records_list (store (snd (call_each (map localforage.removeItem ks) w))) = None.
Proof.
  revert w. induction ks as [|k ks IH]; intros w; [by left|].
  cbn [map]. rewrite call_each_cons. cbn [snd].
  destruct (IH (snd (localforage.removeItem k w))) as [Hsame|Hnone]; [|by right].
  rewrite Hsame. apply removeItem_records_list.
Qed.

(** Whatever the store does, [removeRecordsByList] leaves as index the
    one it found, none, or the retained records. *)
Lemma removeRecordsByList_records_list data w :
  records_list (store (snd (cacheIndex.removeRecordsByList data w)))
  = records_list (store w) \/
  records_list (store (snd (cacheIndex.removeRecordsByList data w))) = None \/
  records_list (store (snd (cacheIndex.removeRecordsByList data w)))
  = Some (localforage.serialize (retainedRecords data)).
Proof.
  unfold cacheIndex.removeRecordsByList, resolve_only.
  destruct (removedRecords data) as [|o removed]; [by left|].
  cbn [length Nat.eqb].
  rewrite <- (map_map (fun item => key (fields item)) localforage.removeItem).
  pose proof (call_each_removeItem_records_list
                (map (fun item => key (fields item)) (o :: removed)) w) as Hce.
  destruct (call_each _ w) as [os w1]. cbn [snd] in Hce.
  unfold localforage.setItem_records, localforage.issue, then_.
  destruct (store_fails (length (trace w1)) _); cbn.
  - destruct (Promise_all _) as [?|?|]; cbn; destruct Hce; auto.
  - destruct (Promise_all _) as [?|?|]; cbn; auto.
Qed.

Lemma unique_keys_default (idx : option (list IndexEntry)) l :
  unique_keys l ->
  idx = Some l \/ idx = None -> unique_keys (default [] idx).
Proof. intros Hu [->| ->]; [done | constructor]. Qed.

Lemma bulk_removal_unique data w0 w :
  records_list (store w) = records_list (store w0) ->
  sublist (localforage.serialize (retainedRecords data)) (index_list w0) ->
  unique_keys (index_list w0) ->
  unique_keys (index_list (snd (cacheIndex.removeRecordsByList data w))).
Proof.
  intros Hsame Hsub Hu. unfold index_list at 1.
  destruct (removeRecordsByList_records_list data w) as [-> | [-> | ->]].
  - by rewrite Hsame.
  - constructor.
  - cbn. by eapply unique_keys_sublist.
Qed.

Lemma clearPageSeries_read_fails reqParams w :
  store_fails (length (trace w)) (OpGetItem RECORDS_LIST_KEY) = true ->
  cacheIndex.clearPageSeries reqParams w
  = (Pending, refused (OpGetItem RECORDS_LIST_KEY) w).
Proof.
  intros Hget. unfold cacheIndex.clearPageSeries, resolve_only, then_.
  by rewrite getAll_fail.
Qed.

(** X7: From an index with at most one entry per key (or none), every
    operation that rewrites the index leaves such an index, whichever
    store operations fail on the way. *)
Theorem unique_keys_kept_by_every_operation
    (k : string) (lifetime : option Lifetime) (reqParams : gmap string ReqValue)
    (w : World) :
  unique_keys (index_list w) ->
  unique_keys (index_list (snd (cacheIndex.removeItem k w))) /\
  unique_keys (index_list (snd (cacheIndex.pruneRecordsFrom lifetime w))) /\
  unique_keys (index_list (snd (cacheIndex.clearPageSeries reqParams w))) /\
  unique_keys (index_list (snd (cacheIndex.clearAll w))).
Proof.
  intros Hu. split; [|split; [|split]].
  - destruct (store_fails (length (trace w)) (OpGetItem RECORDS_LIST_KEY)) eqn:Hget.
    + unfold cacheIndex.removeItem, then_. by rewrite getAllExcluding_fail.
    + rewrite removeItem_run by done.
      unfold localforage.setItem_records, localforage.issue. cbn.
      match goal with |- context [store_fails ?n ?op] => destruct (store_fails n op) end;
        cbn; [done|].
      rewrite dropMatches_serialize.
      eapply unique_keys_sublist; [exact Hu | apply sublist_filter].
  - rewrite pruneRecordsFrom_unfold. unfold then_.
    destruct (store_fails (length (trace w)) (OpGetItem RECORDS_LIST_KEY)) eqn:Hget.
    + by rewrite dropOlderThan_fail.
    + rewrite dropOlderThan_ok by done.
      apply (bulk_removal_unique _ (debug (LogStartPrune (resolved_lifetime lifetime)) w));
        [done | | done].
      apply serialize_filter_at_sublist.
  - destruct (store_fails (length (trace w)) (OpGetItem RECORDS_LIST_KEY)) eqn:Hget.
    + by rewrite clearPageSeries_read_fails.
    + rewrite clearPageSeries_unfold by done.
      apply (bulk_removal_unique _ w); [done | | done].
      cbn. rewrite serialize_not_in_series. apply sublist_filter.
  - destruct (store_fails (length (trace w)) OpKeys) eqn:Hkeys.
    + by rewrite clearAll_fail.
    + rewrite clearAll_unfold by done. cbn [snd]. unfold index_list at 1.
      change (store (debug ?m ?w0)) with (store w0).
      apply (unique_keys_default _ (index_list w)); [done|].
      destruct (removeItem_records_list RECORDS_LIST_KEY
                  (snd (call_each (map localforage.removeItem (syncHandlerKeys w))
                          (listed w)))) as [-> | ->]; [|by right].
      destruct (call_each_removeItem_records_list (syncHandlerKeys w) (listed w))
        as [-> | ->]; [|by right].
      cbn. unfold index_list. destruct (records_list (store w)); [by left | by right].
Qed.

Lemma addItem_ticks k psk w : ticks w <= ticks (snd (cacheIndex.addItem k psk w)).
Proof.
  unfold cacheIndex.addItem, then_.
  destruct (store_fails (length (trace w)) (OpGetItem RECORDS_LIST_KEY)) eqn:Hget.
  - by rewrite getAllExcluding_fail.
  - rewrite getAllExcluding_ok by done. cbn.
    unfold localforage.setItem_records, localforage.issue. cbn.
    match goal with |- context [store_fails ?n ?op] => destruct (store_fails n op) end;
      cbn; lia.
Qed.

Lemma Forall_of_sublist {A} (P : A -> Prop) l1 l2 :
  sublist l1 l2 -> Forall P l2 -> Forall P l1.
Proof.
  rewrite !Forall_forall. intros Hsub Hall x Hx.
  apply Hall. by eapply elem_of_sublist.
Qed.

Lemma StronglySorted_sublist {A} (R : A -> A -> Prop) l1 l2 :
  sublist l1 l2 -> StronglySorted R l2 -> StronglySorted R l1.
Proof.
  induction 1 as [|x l1 l2 Hsub IH|x l1 l2 Hsub IH]; intros Hs; [done| |].
  - apply StronglySorted_cons in Hs as [Hall Hs].
    apply StronglySorted_cons. split; [|by apply IH].
    by eapply Forall_of_sublist.
  - apply StronglySorted_cons in Hs as [_ Hs]. by apply IH.
Qed.

Lemma addItem_time_ordered k psk w :
  clock_monotone -> time_ordered w ->
  time_ordered (snd (cacheIndex.addItem k psk w)).
Proof.
  intros Hmono [Hsorted Hpast].
  pose proof (Hmono _ _ (addItem_ticks k psk w)) as Hlater.
  destruct (addItem_cases k psk w) as [_ [[_ Hsame]|[_ Hnew]]].
  - unfold time_ordered, index_list in *. rewrite Hsame. split; [done|].
    eapply Forall_impl; [exact Hpast|]. cbn. intros e He. lia.
  - unfold time_ordered. unfold index_list at 1 2. rewrite Hnew. cbn [default id].
    assert (Forall (fun e => (timestamp e <= Date_now_reading (ticks w))%Z)
              (filter (fun e => key e <> k) (index_list w))) as Hkept.
    { eapply Forall_of_sublist; [apply sublist_filter | exact Hpast]. }
    split.
    + rewrite map_app. apply StronglySorted_app. split; [|split].
      * intros x1 x2 Hx1 Hx2. cbn in Hx2. apply list_elem_of_singleton in Hx2 as ->.
        apply list_elem_of_fmap in Hx1 as (e & -> & He).
        rewrite Forall_forall in Hkept. by apply Hkept.
      * eapply StronglySorted_sublist; [|exact Hsorted].
        apply (fmap_sublist timestamp), sublist_filter.
      * cbn. repeat constructor.
    + apply Forall_app. split.
      * eapply Forall_impl; [exact Hkept|]. cbn. intros e He. lia.
      * constructor; [exact Hlater | constructor].
Qed.

(** X8: With a clock that never runs backwards, [addItem] keeps the index in
    the order of its timestamps, oldest first, whichever calls fail.  A
    call that is fulfilled puts its entry last, stamped with the reading
    of the clock, and no entry of the index is younger. *)
Theorem addItems_keep_time_order
    (calls : list (string * option string)) (k : string) (psk : option string)
    (w : World) :
  clock_monotone -> time_ordered w ->
  time_ordered (addItems calls w) /\
  (fst (cacheIndex.addItem k psk w) = Fulfilled tt ->
     last (index_list (snd (cacheIndex.addItem k psk w))) = Some (added_entry k psk w) /\
     timestamp (added_entry k psk w) = Date_now_reading (ticks w) /\
     Forall (fun e => (timestamp e <= timestamp (added_entry k psk w))%Z)
       (index_list (snd (cacheIndex.addItem k psk w)))).
Proof.
  intros Hmono Hw. split.
  - revert w Hw. induction calls as [|[k' psk'] calls IH]; intros w Hw; [done|].
    cbn [addItems]. apply IH. by apply addItem_time_ordered.
  - intros Hout. destruct (addItem_cases k psk w) as [_ [[Hno _]|[_ Hnew]]]; [done|].
    unfold index_list at 1 2. rewrite Hnew. cbn [default id].
    split; [apply last_snoc|]. split; [done|].
    destruct Hw as [_ Hpast]. apply Forall_app. split.
    + eapply Forall_of_sublist; [apply sublist_filter | exact Hpast].
    + constructor; [cbn; lia | constructor].
Qed.

End Invariants.

(** ** Pruning *)

Section Pruning.
Context `{Env}.

Lemma steady_removed lifetime now w :
  (forall i, i < length (index_list w) -> Date_now_reading (ticks w + i) = now) ->
  localforage.serialize (filter_at (elder_at (Some lifetime)) (ticks w) (objects w))
  = filter (older_than now lifetime) (index_list w).
Proof.
  intros Hnow. rewrite <- objects_serialize.
  apply filter_at_steady with (p := older_than now lifetime). intros i o Hi.
  rewrite elder_at_bool_decide, Hnow; [done|].
  rewrite <- objects_length. by eapply lookup_lt_Some.
Qed.

Lemma steady_retained lifetime now w :
  (forall i, i < length (index_list w) -> Date_now_reading (ticks w + i) = now) ->
  localforage.serialize
    (filter_at (fun t o => negb (elder_at (Some lifetime) t o)) (ticks w) (objects w))
  = filter (fun e => ~ older_than now lifetime e) (index_list w).
Proof.
  intros Hnow. rewrite <- objects_serialize.
  apply filter_at_steady with (p := fun e => ~ older_than now lifetime e). intros i o Hi.
  rewrite elder_at_bool_decide, Hnow, bool_decide_not; [done|].
  rewrite <- objects_length. by eapply lookup_lt_Some.
Qed.

Lemma removed_keys (objs : list Obj) :
  map (fun item => key (fields item)) objs = map key (localforage.serialize objs).
Proof. unfold localforage.serialize. by rewrite map_map. Qed.

(** X9: [dropOlderThan] keeps the order of the index in both lists and reads
    the clock once per entry, whatever the lifetime is.  An absent index
    gives two empty lists, an undefined lifetime removes nothing. *)
Theorem dropOlderThan_keeps_order (lifetime : option Z) (w : World) :
  store_fails (length (trace w)) (OpGetItem RECORDS_LIST_KEY) = false ->
  exists data,
    fst (cacheIndex.dropOlderThan lifetime w) = Fulfilled data /\
    sublist (localforage.serialize (removedRecords data)) (index_list w) /\
    sublist (localforage.serialize (retainedRecords data)) (index_list w) /\
    ticks (snd (cacheIndex.dropOlderThan lifetime w)) = ticks w + length (index_list w) /\
    (records_list (store w) = None ->
       removedRecords data = [] /\ retainedRecords data = []) /\
    (lifetime = None ->
       removedRecords data = [] /\
       localforage.serialize (retainedRecords data) = index_list w).
Proof.
  intros Hget. rewrite dropOlderThan_ok by done. eexists. split; [done|].
  cbn [fst snd removedRecords retainedRecords].
  split; [apply serialize_filter_at_sublist|].
  split; [apply serialize_filter_at_sublist|].
  split; [done|]. split.
  - intros Hnone. unfold objects, loaded_records. by rewrite Hnone.
  - intros ->. split.
    + by apply filter_at_none.
    + rewrite <- objects_serialize. f_equal.
      rewrite (filter_at_ext _ (fun _ _ => true)) by done.
      rewrite filter_at_const. by apply List.forallb_filter_id, forallb_forall.
Qed.

(** X10: A longer lifetime removes less: what [dropOlderThan] removes for the
    longer one it removes for the shorter one too, and what it retains
    for the shorter one it retains for the longer one. *)
Theorem dropOlderThan_monotone (L1 L2 : Z) (w : World) :
  (L1 <= L2)%Z ->
  store_fails (length (trace w)) (OpGetItem RECORDS_LIST_KEY) = false ->
  exists data1 data2,
    fst (cacheIndex.dropOlderThan (Some L1) w) = Fulfilled data1 /\
    fst (cacheIndex.dropOlderThan (Some L2) w) = Fulfilled data2 /\
    (forall o, o ∈ removedRecords data2 -> o ∈ removedRecords data1) /\
    (forall o, o ∈ retainedRecords data1 -> o ∈ retainedRecords data2) /\
    length (removedRecords data2) <= length (removedRecords data1).
Proof.
  intros HL Hget. rewrite !dropOlderThan_ok by done.
  do 2 eexists. split; [done|]. split; [done|].
  cbn [removedRecords retainedRecords].
  assert (Hle : forall t o, elder_at (Some L2) t o = true -> elder_at (Some L1) t o = true).
  { intros t o. rewrite !elder_at_older_than. unfold older_than. lia. }
  split; [|split].
  - intros o (i & Hi & Hq)%elem_of_filter_at. apply elem_of_filter_at.
    exists i. split; [done|]. by apply Hle.
  - intros o (i & Hi & Hq)%elem_of_filter_at. apply elem_of_filter_at.
    exists i. split; [done|]. apply negb_true_iff in Hq. apply negb_true_iff.
    destruct (elder_at (Some L2) (ticks w + i) o) eqn:E; [|done].
    apply Hle in E. congruence.
  - generalize (ticks w). induction (objects w) as [|o r IH]; intros t; [done|].
    cbn [filter_at]. specialize (IH (S t)).
    destruct (elder_at (Some L2) t o) eqn:E.
    + rewrite (Hle _ _ E). cbn [length]. lia.
    + destruct (elder_at (Some L1) t o); cbn [length]; lia.
Qed.

(** X11: With a store that works, the clock standing at [now] during the
    call and the subtraction [now - L] exact, [pruneRecordsFrom], when
    some entry is older than the lifetime,
    is fulfilled, persists the entries that are not older, in their order,
    leaves no payload under the key of an older entry and leaves the
    payloads under all other keys. *)
Theorem pruneRecordsFrom_evicts_old
    (lifetime : option Lifetime) (L now : Z) (w : World) :
  store_ok_after w ->
  resolved_lifetime lifetime = Some L ->
  (forall i, i < length (index_list w) -> Date_now_reading (ticks w + i) = now) ->
  exact_difference now L ->
  (exists e, e ∈ index_list w /\ older_than now L e) ->
  fst (cacheIndex.pruneRecordsFrom lifetime w) = Fulfilled tt /\
  records_list (store (snd (cacheIndex.pruneRecordsFrom lifetime w)))
  = Some (filter (fun e => ~ older_than now L e) (index_list w)) /\
  (forall e p, e ∈ index_list w -> older_than now L e ->
     localforage.lookup (store (snd (cacheIndex.pruneRecordsFrom lifetime w))) (key e)
     <> Some (localforage.VPayload p)) /\
  (forall k', k' <> RECORDS_LIST_KEY ->
     (forall e, e ∈ index_list w -> older_than now L e -> key e <> k') ->
     localforage.lookup (store (snd (cacheIndex.pruneRecordsFrom lifetime w))) k'
     = localforage.lookup (store w) k') /\
  log (snd (cacheIndex.pruneRecordsFrom lifetime w))
  = log w ++ [LogStartPrune (Some L);
              LogRecordsRemoved (length (filter (older_than now L) (index_list w)) + 1)].
Proof.
  intros Hok HL Hnow _ (e0 & He0 & Hold0).
  rewrite pruneRecordsFrom_unfold, HL. unfold then_.
  set (w1 := debug (LogStartPrune (Some L)) w).
  rewrite dropOlderThan_ok by by apply (store_ok_first w).
  change (objects w1) with (objects w). change (ticks w1) with (ticks w).
  change (index_list w1) with (index_list w).
  pose proof (steady_removed L now w Hnow) as Hrem.
  pose proof (steady_retained L now w Hnow) as Hret.
  set (removed := filter_at (elder_at (Some L)) (ticks w) (objects w)) in *.
  set (retained := filter_at (fun t o => negb (elder_at (Some L) t o)) (ticks w) (objects w)) in *.
  assert (removed <> []) as Hne.
  { intros Hnil. rewrite Hnil in Hrem. cbn in Hrem. symmetry in Hrem.
    by apply (filter_nil_none _ _ e0 Hrem). }
  rewrite removeRecordsByList_ok; [|by eapply store_ok_later|done].
  unfold after_bulk_removal.
  cbn [fst snd store records_list payloads log removedRecords retainedRecords advance loaded].
  rewrite removed_keys, Hrem, Hret.
  split; [done|]. split; [done|]. split; [|split].
  - intros e p He Hold. unfold localforage.lookup. case_decide as Hk; [done|].
    cbn [payloads]. rewrite forget_all_payloads, decide_True; [done|].
    split; [|done]. apply list_elem_of_fmap_2. by apply list_elem_of_filter.
  - intros k' Hk' Hfree. unfold localforage.lookup. rewrite !decide_False by done.
    cbn [payloads]. rewrite forget_all_payloads, decide_False; [done|].
    intros [Hin _]. apply list_elem_of_fmap in Hin as (e & -> & He).
    apply list_elem_of_filter in He as [Hold He]. by apply (Hfree e).
  - unfold w1. cbn. rewrite <- app_assoc. cbn. do 3 f_equal.
    rewrite <- Hrem. unfold localforage.serialize. by rewrite length_map.
Qed.

Lemma call_each_removeItem_carried ks w :
  (forall i k, store_fails i (OpRemoveItem k) = false) ->
  call_each (map localforage.removeItem ks) w
  = (map (fun _ => Fulfilled tt) ks, after_removals ks w).
Proof.
  intros Hrm. revert w. induction ks as [|k ks IH]; intros w.
  - cbn. unfold after_removals. cbn. rewrite app_nil_r. by destruct w.
  - cbn [map]. rewrite call_each_cons.
    assert (localforage.removeItem k w = (Fulfilled tt, after_removals [k] w)) as ->.
    { unfold localforage.removeItem, localforage.issue. by rewrite Hrm. }
    cbn [fst snd]. rewrite IH. cbn [fst snd]. f_equal.
    unfold after_removals. cbn. by rewrite <- app_assoc.
Qed.

(** X12: No rollback: when the store carries out the removals and then rejects
    the write of the index, [removeRecordsByList] stays pending, the
    payloads of the removed records are gone and the index is not
    rewritten, so it still lists them. *)
Theorem removeRecordsByList_failed_rewrite (data : RecordsPartition) (w : World) :
  removedRecords data <> [] ->
  (forall i k, store_fails i (OpRemoveItem k) = false) ->
  store_fails (length (trace w) + length (removedRecords data))
    (OpSetItem RECORDS_LIST_KEY (localforage.serialize (retainedRecords data))) = true ->
  fst (cacheIndex.removeRecordsByList data w) = Pending /\
  store (snd (cacheIndex.removeRecordsByList data w))
  = forget_all (map (fun item => key (fields item)) (removedRecords data)) (store w) /\
  (forall o, o ∈ removedRecords data -> key (fields o) <> RECORDS_LIST_KEY ->
     payloads (store (snd (cacheIndex.removeRecordsByList data w))) !! key (fields o) = None) /\
  ((forall o, o ∈ removedRecords data -> key (fields o) <> RECORDS_LIST_KEY) ->
     records_list (store (snd (cacheIndex.removeRecordsByList data w)))
     = records_list (store w)).
Proof.
  intros Hne Hrm Hset.
  assert (cacheIndex.removeRecordsByList data w
          = (Pending,
             refused (OpSetItem RECORDS_LIST_KEY (localforage.serialize (retainedRecords data)))
               (after_removals (map (fun item => key (fields item)) (removedRecords data)) w)))
    as ->.
  { unfold cacheIndex.removeRecordsByList, resolve_only.
    destruct (removedRecords data) as [|o removed] eqn:Hrem; [done|].
    cbn [length Nat.eqb].
    rewrite <- (map_map (fun item => key (fields item)) localforage.removeItem).
    rewrite call_each_removeItem_carried by done.
    unfold localforage.setItem_records, localforage.issue.
    cbn [trace after_removals]. rewrite length_app, !length_map, Hset.
    unfold then_.
    assert (forall (l : list Obj) e,
              Promise_all (map (fun _ => Fulfilled ()) l ++ [@Rejected unit e]) = Rejected e)
      as ->; [|done].
    intros l e. induction l as [|x l IH]; [done|]. cbn. by rewrite IH. }
  cbn [fst snd store refused after_removals].
  split; [done|]. split; [done|]. split.
  - intros o Ho Hk. rewrite forget_all_payloads, decide_True; [done|].
    split; [|done]. by apply (list_elem_of_fmap_2 (fun item => key (fields item))).
  - intros Hfree. apply forget_all_records_list.
    intros Hin. apply list_elem_of_fmap in Hin as (o & Hk & Ho).
    by apply (Hfree o).
Qed.

End Pruning.

(** ** How the bulk operations end *)

Section BulkOutcomes.
Context `{Env}.

(** X13: [clearPageSeries] is never rejected.  When the read of the index
    fails, and when no entry belongs to the series of the request, its
    promise stays pending and the store is as it was; nothing is written
    or removed. *)
Theorem clearPageSeries_never_rejects
    (reqParams : gmap string ReqValue) (w : World) :
  (forall e, fst (cacheIndex.clearPageSeries reqParams w) <> Rejected e) /\
  (store_fails (length (trace w)) (OpGetItem RECORDS_LIST_KEY) = true ->
     fst (cacheIndex.clearPageSeries reqParams w) = Pending /\
     store (snd (cacheIndex.clearPageSeries reqParams w)) = store w /\
     issued w (snd (cacheIndex.clearPageSeries reqParams w)) = [OpGetItem RECORDS_LIST_KEY]) /\
  (store_fails (length (trace w)) (OpGetItem RECORDS_LIST_KEY) = false ->
   (forall e, e ∈ index_list w -> pageSeriesKey e <> Some (series_key reqParams)) ->
     fst (cacheIndex.clearPageSeries reqParams w) = Pending /\
     store (snd (cacheIndex.clearPageSeries reqParams w)) = store w /\
     issued w (snd (cacheIndex.clearPageSeries reqParams w)) = [OpGetItem RECORDS_LIST_KEY] /\
     log (snd (cacheIndex.clearPageSeries reqParams w)) = log w ++ [LogNoRecords]).
Proof.
  split; [|split].
  - intros e. apply resolve_only_never_rejects.
  - intros Hget. rewrite clearPageSeries_read_fails by done. cbn.
    split; [done|]. split; [done|]. by apply issued_app.
  - intros Hget Hnone. rewrite clearPageSeries_unfold by done.
    rewrite removeRecordsByList_empty.
    + cbn. split; [done|]. split; [done|]. split; [|done]. by apply issued_app.
    + apply series_removed_nil.
      induction (index_list w) as [|e l IH]; [done|].
      rewrite filter_cons_False by (intros Heq; by apply (Hnone e); [left|]).
      apply IH. intros e' He'. apply Hnone. by right.
Qed.

Lemma removeItem_shrinks k w k' :
  payloads (store (snd (localforage.removeItem k w))) !! k' = payloads (store w) !! k' \/
  payloads (store (snd (localforage.removeItem k w))) !! k' = None.
Proof.
  unfold localforage.removeItem, localforage.issue.
  destruct (store_fails _ _); cbn; [by left|].
  unfold localforage.forget. case_decide; cbn; [by left|].
  destruct (decide (k' = k)) as [->|Hne].
  - right. apply lookup_delete_eq.
  - left. by apply lookup_delete_ne.
Qed.

Lemma call_each_removeItem_shrinks ks w k' :
  payloads (store (snd (call_each (map localforage.removeItem ks) w))) !! k'
  = payloads (store w) !! k' \/
  payloads (store (snd (call_each (map localforage.removeItem ks) w))) !! k' = None.
Proof.
  revert w. induction ks as [|k ks IH]; intros w; [by left|].
  cbn [map]. rewrite call_each_cons. cbn [snd].
  destruct (IH (snd (localforage.removeItem k w))) as [Hsame|Hnone]; [|by right].
  rewrite Hsame. apply removeItem_shrinks.
Qed.

Lemma removeItem_accepted k w :
  (forall i, store_fails i (OpRemoveItem k) = false) ->
  (k <> RECORDS_LIST_KEY ->
     payloads (store (snd (localforage.removeItem k w))) !! k = None) /\
  (k = RECORDS_LIST_KEY ->
     records_list (store (snd (localforage.removeItem k w))) = None).
Proof.
  intros Hrm. unfold localforage.removeItem, localforage.issue.
  rewrite Hrm. cbn. unfold localforage.forget. split; intros Hk.
  - rewrite decide_False by done. cbn. apply lookup_delete_eq.
  - by rewrite decide_True.
Qed.

Lemma call_each_removeItem_accepted ks w k :
  (forall i, store_fails i (OpRemoveItem k) = false) ->
  k ∈ ks -> k <> RECORDS_LIST_KEY ->
  payloads (store (snd (call_each (map localforage.removeItem ks) w))) !! k = None.
Proof.
  intros Hrm Hin Hk. revert w. induction ks as [|k0 ks IH]; intros w.
  - by apply elem_of_nil in Hin.
  - cbn [map]. rewrite call_each_cons. cbn [snd].
    destruct (decide (k = k0)) as [<-|Hne].
    + destruct (call_each_removeItem_shrinks ks (snd (localforage.removeItem k w)) k)
        as [-> | ->]; [|done].
      by apply removeItem_accepted.
    + apply IH. apply elem_of_cons in Hin as [?|?]; done.
Qed.

Lemma removeItem_log k w : log (snd (localforage.removeItem k w)) = log w.
Proof.
  unfold localforage.removeItem, localforage.issue.
  by destruct (store_fails (length (trace w)) (OpRemoveItem k)).
Qed.

Lemma call_each_removeItem_log ks w :
  log (snd (call_each (map localforage.removeItem ks) w)) = log w.
Proof.
  revert w. induction ks as [|k ks IH]; intros w; [done|].
  cbn [map]. rewrite call_each_cons. cbn [snd]. by rewrite IH, removeItem_log.
Qed.

Lemma call_each_removeItem_settled ks w :
  Forall (fun o => o <> @Pending unit)
    (fst (call_each (map localforage.removeItem ks) w)).
Proof.
  revert w. induction ks as [|k ks IH]; intros w; [constructor|].
  cbn [map]. rewrite call_each_cons. cbn [fst]. constructor; [|apply IH].
  unfold localforage.removeItem, localforage.issue.
  by destruct (store_fails _ _).
Qed.

Lemma Promise_all_settled {A} (os : list (Outcome A)) :
  Forall (fun o => o <> Pending) os -> Promise_all os <> Pending.
Proof.
  induction 1 as [|o os Ho Hos IH]; [done|].
  cbn. destruct o as [a|e|]; [|done|done].
  by destruct (Promise_all os).
Qed.

(** X14: [clearAll] is rejected with [keys()] when the listing fails, and then
    nothing is removed.  Once the keys are listed it issues every removal,
    whether earlier ones fail or not, and logs its message: a key of the
    record shape, or the index key, whose removal the store accepts holds
    nothing afterwards, even when the promise is rejected for another
    key.  The promise always settles. *)
Theorem clearAll_outcomes (w : World) (k : string) :
  (store_fails (length (trace w)) OpKeys = true ->
     fst (cacheIndex.clearAll w) = Rejected OpKeys /\
     store (snd (cacheIndex.clearAll w)) = store w /\
     issued w (snd (cacheIndex.clearAll w)) = [OpKeys]) /\
  (store_fails (length (trace w)) OpKeys = false ->
     issued w (snd (cacheIndex.clearAll w))
     = OpKeys :: map OpRemoveItem (syncHandlerKeys w) ++ [OpRemoveItem RECORDS_LIST_KEY] /\
     log (snd (cacheIndex.clearAll w))
     = log w ++ [LogRecordsRemoved (length (syncHandlerKeys w) + 1)] /\
     ((forall i, store_fails i (OpRemoveItem k) = false) ->
      isSyncRecordKey k = true \/ k = RECORDS_LIST_KEY ->
      localforage.lookup (store (snd (cacheIndex.clearAll w))) k = None)) /\
  fst (cacheIndex.clearAll w) <> Pending.
Proof.
  split; [|split].
  - intros Hkeys. rewrite clearAll_fail by done. cbn.
    split; [done|]. split; [done|]. by apply issued_app.
  - intros Hkeys. rewrite clearAll_unfold by done. cbn [snd].
    destruct (call_each_removeItem_frame (syncHandlerKeys w) (listed w))
      as (Htr & Hpay & Hidx).
    destruct (removeItem_frame RECORDS_LIST_KEY
                (snd (call_each (map localforage.removeItem (syncHandlerKeys w))
                        (listed w)))) as (Htr' & Hpay' & _).
    split; [|split].
    + apply issued_app. cbn [trace debug]. rewrite Htr', Htr. cbn.
      by rewrite <- !app_assoc.
    + cbn [log debug]. f_equal.
      by rewrite removeItem_log, call_each_removeItem_log.
    + intros Hrm Hsel. unfold localforage.lookup. cbn [store debug].
      case_decide as Hk.
      * subst k. by rewrite (proj2 (removeItem_accepted RECORDS_LIST_KEY _ Hrm)).
      * destruct Hsel as [Hyes|?]; [|done].
        rewrite Hpay' by done.
        destruct (payloads (store w) !! k) as [v|] eqn:Hv.
        -- rewrite call_each_removeItem_accepted; [done|done| |done].
           apply list_elem_of_In, List.filter_In. split; [|done].
           apply list_elem_of_In, elem_of_stored_keys; [done|]. by eexists.
        -- destruct (call_each_removeItem_shrinks (syncHandlerKeys w) (listed w) k)
             as [-> | ->]; [|done].
           cbn. by rewrite Hv.
  - destruct (store_fails (length (trace w)) OpKeys) eqn:Hkeys.
    + by rewrite clearAll_fail.
    + rewrite clearAll_unfold by done. cbn [fst].
      apply Promise_all_settled, Forall_app. split.
      * apply call_each_removeItem_settled.
      * constructor; [|constructor].
        unfold localforage.removeItem, localforage.issue.
        match goal with |- context [store_fails ?n ?op] =>
          by destruct (store_fails n op) end.
Qed.

End BulkOutcomes.

(** ** More scenarios *)

Section MoreScenarios.

Lemma removeItem_idempotent_witness :
  store (snd (cacheIndex.removeItem "sync-record-a"
                (snd (cacheIndex.removeItem "sync-record-a" fresh_world))))
  = store (snd (cacheIndex.removeItem "sync-record-a" fresh_world)).
Proof.
  exact (proj2 (removeItem_idempotent "sync-record-a" fresh_world
                  (reliable_store_ok fresh_world))).
Defined.

Lemma removeItem_of_unlisted_key_witness :
  records_list (store (snd (cacheIndex.removeItem "sync-record-a" blank_world))) = Some [] /\
  fst (cacheIndex.getAll (snd (cacheIndex.removeItem "sync-record-a" blank_world)))
  = Fulfilled (Some []).
Proof.
  destruct (removeItem_of_unlisted_key "sync-record-a" blank_world
              (reliable_store_ok blank_world)) as (_ & _ & Habsent).
  - intros e He. by apply elem_of_nil in He.
  - exact (Habsent eq_refl).
Defined.

Lemma addItem_then_removeItem_witness :
  records_list
    (store (snd (cacheIndex.removeItem "sync-record-c"
                   (snd (cacheIndex.addItem "sync-record-c" None fresh_world)))))
  = records_list (store fresh_world).
Proof.
  destruct (addItem_then_removeItem "sync-record-c" None fresh_world
              (reliable_store_ok fresh_world)) as (_ & Hback & _).
  rewrite Hback; [reflexivity|].
  intros e He. apply list_elem_of_In in He. cbn in He.
  destruct He as [<-|[<-|[]]]; discriminate.
Defined.

Lemma clearAll_then_addItem_witness :
  records_list
    (store (snd (cacheIndex.addItem "sync-record-a" None
                   (snd (cacheIndex.clearAll fresh_world)))))
  = Some [entry "sync-record-a" 1000 None].
Proof.
  destruct (clearAll_then_addItem "sync-record-a" None fresh_world
              (reliable_store_ok fresh_world)) as (_ & _ & Hidx).
  rewrite Hidx. reflexivity.
Defined.

Lemma unique_keys_kept_by_every_operation_witness :
  unique_keys (index_list (snd (cacheIndex.removeItem "sync-record-a" fresh_world))) /\
  unique_keys (index_list (snd (cacheIndex.pruneRecordsFrom None fresh_world))) /\
  unique_keys (index_list (snd (cacheIndex.clearPageSeries (H := reliable_env)
                                  posts_page_2 fresh_world))) /\
  unique_keys (index_list (snd (cacheIndex.clearAll fresh_world))).
Proof.
  apply (unique_keys_kept_by_every_operation (H := reliable_env)).
  unfold unique_keys. cbn. apply NoDup_cons. split.
  - intros Hin. apply list_elem_of_singleton in Hin. discriminate.
  - apply NoDup_singleton.
Defined.

Lemma reliable_clock_monotone : @clock_monotone reliable_env.
Proof. intros i j Hij. cbn. lia. Defined.

Lemma addItems_keep_time_order_witness :
  time_ordered
    (addItems [("k1"%string, None); ("k2"%string, None); ("k1"%string, Some "g1"%string)]
       blank_world) /\
  last (index_list (snd (cacheIndex.addItem "k1" None blank_world)))
  = Some (entry "k1" 1000 None).
Proof.
  destruct (addItems_keep_time_order
              [("k1"%string, None); ("k2"%string, None); ("k1"%string, Some "g1"%string)]
              "k1" None blank_world reliable_clock_monotone) as [Hseq Hone].
  - split; constructor.
  - split; [exact Hseq|]. exact (proj1 (Hone eq_refl)).
Defined.

Lemma dropOlderThan_keeps_order_witness :
  exists data,
    fst (cacheIndex.dropOlderThan (Some 5%Z) fresh_world) = Fulfilled data /\
    ticks (snd (cacheIndex.dropOlderThan (Some 5%Z) fresh_world)) = 2.
Proof.
  destruct (dropOlderThan_keeps_order (Some 5%Z) fresh_world eq_refl)
    as (data & Hout & _ & _ & Hticks & _).
  exists data. split; [exact Hout | exact Hticks].
Defined.

Lemma dropOlderThan_monotone_witness :
  exists data1 data2,
    fst (cacheIndex.dropOlderThan (Some 5%Z) fresh_world) = Fulfilled data1 /\
    fst (cacheIndex.dropOlderThan (Some 50%Z) fresh_world) = Fulfilled data2 /\
    length (removedRecords data2) <= length (removedRecords data1).
Proof.
  destruct (dropOlderThan_monotone 5%Z 50%Z fresh_world) as
    (data1 & data2 & H1 & H2 & _ & _ & Hlen); [lia | reflexivity |].
  exists data1, data2. split; [exact H1|]. split; [exact H2 | exact Hlen].
Defined.

(** The scenario of the specification: after [pruneRecordsFrom] with two
    days the store no longer has [sync-record-b] and the index is [a]. *)
Lemma pruneRecordsFrom_evicts_old_witness :
  fst (cacheIndex.pruneRecordsFrom (Some (LString "2 days")) aged_world) = Fulfilled tt /\
  records_list (store (snd (cacheIndex.pruneRecordsFrom (Some (LString "2 days")) aged_world)))
  = Some [entry "sync-record-a" 300000000 None].
Proof.
  destruct (pruneRecordsFrom_evicts_old (Some (LString "2 days")) 172800000%Z 300000000%Z
              aged_world) as (Hout & Hidx & _).
  - intros i op Hi. reflexivity.
  - reflexivity.
  - intros i Hi. reflexivity.
  - unfold exact_difference. lia.
  - exists (entry "sync-record-b" 40800000 None). split.
    + apply list_elem_of_In. right. left. reflexivity.
    + unfold older_than. cbn. lia.
  - split; [exact Hout|]. rewrite Hidx. reflexivity.
Defined.

Lemma removeRecordsByList_failed_rewrite_witness :
  fst (cacheIndex.removeRecordsByList b_removed stuck_world) = Pending /\
  payloads (store (snd (cacheIndex.removeRecordsByList b_removed stuck_world)))
    !! "sync-record-b"%string = None /\
  records_list (store (snd (cacheIndex.removeRecordsByList b_removed stuck_world)))
  = records_list (store stuck_world).
Proof.
  destruct (removeRecordsByList_failed_rewrite b_removed stuck_world)
    as (Hout & _ & Hgone & Hidx).
  - discriminate.
  - intros i k. reflexivity.
  - reflexivity.
  - split; [exact Hout|]. split.
    + apply (Hgone {| ref := 1; fields := entry "sync-record-b" 40800000 None |}).
      * apply list_elem_of_In. left. reflexivity.
      * discriminate.
    + apply Hidx. intros o Ho. apply list_elem_of_In in Ho. cbn in Ho.
      destruct Ho as [<-|[]]. discriminate.
Defined.

Lemma clearPageSeries_never_rejects_witness :
  fst (cacheIndex.clearPageSeries (H := reliable_env) tags_page fresh_world) = Pending /\
  store (snd (cacheIndex.clearPageSeries (H := reliable_env) tags_page fresh_world))
  = store fresh_world.
Proof.
  destruct (clearPageSeries_never_rejects (H := reliable_env) tags_page fresh_world)
    as (_ & _ & Hnone).
  destruct (Hnone eq_refl) as (Hout & Hst & _).
  - intros e He. apply list_elem_of_In in He. cbn in He.
    destruct He as [<-|[<-|[]]]; discriminate.
  - split; [exact Hout | exact Hst].
Defined.

Lemma clearAll_outcomes_witness :
  fst (cacheIndex.clearAll half_cleared_world) = Rejected (OpRemoveItem "sync-record-a") /\
  localforage.lookup (store (snd (cacheIndex.clearAll half_cleared_world))) "sync-record-b"
  = None.
Proof.
  split; [reflexivity|].
  destruct (clearAll_outcomes half_cleared_world "sync-record-b") as (_ & Hlisted & _).
  destruct (Hlisted eq_refl) as (_ & _ & Hgone).
  apply Hgone; [intros i; reflexivity | left; reflexivity].
Defined.

End MoreScenarios.

(** ** The notices of the Jetpack connection form *)

Section Notices.
Import JetpackConnectNotices.
Context {Handler : Type} (translate : string -> string).

Local Ltac notice_cases p :=
  unfold getNoticeValues;
  repeat (destruct (noticeType_is p _) eqn:?; [try done|]).

(** X15: A notice is rendered exactly for the ten notice types the component
    knows; for any other type, and without a type, [getNoticeValues]
    answers undefined and [render] null. *)
Theorem render_known_types_only (p : Props Handler) :
  (is_Some (getNoticeValues Handler translate p)
   <-> exists t, noticeType Handler p = Some t /\ t ∈ known_types) /\
  (render Handler translate p = None
   <-> forall t, t ∈ known_types -> noticeType Handler p <> Some t).
Proof.
  assert (Hiff : is_Some (getNoticeValues Handler translate p)
                 <-> exists t, noticeType Handler p = Some t /\ t ∈ known_types).
  { split.
    - intros Hsome. unfold getNoticeValues in Hsome.
      repeat match type of Hsome with
             | is_Some (if noticeType_is _ _ ?t then _ else _) =>
                 destruct (noticeType_is Handler p t) eqn:E;
                 [apply bool_decide_eq_true_1 in E; exists t; split;
                  [exact E | set_solver] | clear E]
             end.
      by destruct Hsome.
    - intros (t & Ht & Hin). destruct p as [nt su h]. cbn in Ht. subst nt.
      unfold known_types in Hin.
      repeat (apply elem_of_cons in Hin as [->|Hin]; [by eexists|]).
      by apply elem_of_nil in Hin. }
  split; [exact Hiff|].
  unfold render. split.
  - intros Hnone t Hin Ht.
    assert (is_Some (getNoticeValues Handler translate p)) as [v Hv]
      by (apply Hiff; eauto).
    by rewrite Hv in Hnone.
  - intros Hnot. destruct (getNoticeValues Handler translate p) as [v|] eqn:Hv; [|done].
    exfalso. destruct (proj1 Hiff (ex_intro _ v eq_refl)) as (t & Ht & Hin).
    by apply (Hnot t).
Qed.

(** X16: Whatever the notice type, the notice can be dismissed exactly when
    the component was given a dismiss handler, which is handed on as it
    is; icon, status and text do not depend on the handler. *)
Theorem dismiss_follows_handler (p : Props Handler) (h' : option Handler)
    (v : NoticeValues Handler) :
  getNoticeValues Handler translate p = Some v ->
  showDismiss Handler v = bool_decide (is_Some (props_onDismissClick Handler p)) /\
  onDismissClick Handler v = props_onDismissClick Handler p /\
  exists v',
    getNoticeValues Handler translate
      {| noticeType := noticeType Handler p; siteUrl := siteUrl Handler p;
         props_onDismissClick := h' |} = Some v' /\
    icon Handler v' = icon Handler v /\
    status Handler v' = status Handler v /\
    text Handler v' = text Handler v.
Proof.
  destruct p as [nt su h]. unfold getNoticeValues, noticeType_is. cbn.
  intros Hv.
  repeat match type of Hv with
         | (if bool_decide ?P then _ else _) = _ =>
             destruct (bool_decide P) eqn:E;
             [injection Hv as <-;
              split; [by destruct h|]; split; [by destruct h|];
              eexists; split; [reflexivity|]; by destruct h, h'
             | clear E]
         end.
  done.
Qed.

End Notices.

(** ** The action creators of the exporter *)

Section Exporter.
Import exporter.
Context `{ExporterEnv}.

Lemma settling_terminal r :
  is_terminal (snd (settling r)) = true /\ length (fst (settling r)) = 1 /\
  notices (fst (settling r)) = fst (settling r).
Proof.
  destruct r as [|status url]; cbn; [done|].
  by destruct (String.eqb status "finished").
Qed.

Lemma poll_not_running siteId t r later :
  is_running r = false ->
  poll siteId t (r :: later)
  = SetTimeout t :: CallGetExport siteId 0 :: DebugPoll r :: dispatch (settling r).
Proof.
  intros Hr. destruct r as [|status url]; cbn in *; [done|]. rewrite Hr.
  by destruct (String.eqb status "finished").
Qed.

Lemma poll_running siteId t r later :
  is_running r = true ->
  poll siteId t (r :: later)
  = SetTimeout t :: CallGetExport siteId 0 :: DebugPoll r :: poll siteId 500 later.
Proof.
  intros Hr. destruct r as [|status url]; cbn in *; [done|]. by rewrite Hr.
Qed.

Lemma dispatched_settling r :
  dispatched (dispatch (settling r)) = [snd (settling r)] /\
  notices (dispatch (settling r)) = fst (settling r).
Proof.
  destruct r as [|status url]; cbn; [done|].
  by destruct (String.eqb status "finished").
Qed.

(** One round of polls dispatches nothing while the server says
    [running], and then one terminal action with its one notice. *)
Lemma poll_dispatched siteId t replies :
  (dispatched (poll siteId t replies) = [] /\ notices (poll siteId t replies) = []) \/
  (exists r, is_running r = false /\
     dispatched (poll siteId t replies) = [snd (settling r)] /\
     notices (poll siteId t replies) = fst (settling r)).
Proof.
  revert t. induction replies as [|r later IH]; intros t; [by left|].
  destruct (is_running r) eqn:Hr.
  - rewrite poll_running by done. apply (IH 500%Z).
  - rewrite poll_not_running by done. right. exists r. split; [done|].
    apply dispatched_settling.
Qed.

Lemma poll_counts siteId t replies :
  polls (poll siteId t replies) = S (leading_running replies) /\
  timeouts (poll siteId t replies) = t :: replicate (leading_running replies) 500%Z.
Proof.
  revert t. induction replies as [|r later IH]; intros t; [done|].
  cbn [leading_running]. destruct (is_running r) eqn:Hr.
  - rewrite poll_running by done. destruct (IH 500%Z) as [Hp Ht].
    unfold polls, timeouts in *. cbn. by rewrite Hp, Ht.
  - rewrite poll_not_running by done. unfold polls, timeouts.
    destruct r as [|status url]; cbn; [done|].
    by destruct (String.eqb status "finished").
Qed.

(** X17: Without a selected site the thunk of [startExport] does nothing.
    With one, it dispatches the request first and then, in this order,
    at most a reply and at most one terminal action: a failure right
    after the request when the start fails, or the reply followed by a
    failure or a completion.  Each terminal action comes with exactly one
    notice; no other notice is shown. *)
Theorem startExport_protocol (postType : PostTypeArg) (state : State)
    (startReply : option StartReply) (pollReplies : list PollReply) :
  (getSelectedSite state = None ->
     startExport_thunk postType state startReply pollReplies = []) /\
  (forall site, getSelectedSite state = Some site ->
     exists rest,
       dispatched (startExport_thunk postType state startReply pollReplies)
       = REQUEST_START_EXPORT (ID site) (prepareExportRequest state postType) :: rest /\
       (rest = [] \/ rest = [FAIL_EXPORT] \/ rest = [REPLY_START_EXPORT] \/
        rest = [REPLY_START_EXPORT; FAIL_EXPORT] \/
        rest = [REPLY_START_EXPORT; COMPLETE_EXPORT])) /\
  length (notices (startExport_thunk postType state startReply pollReplies))
  = length (List.filter is_terminal
              (dispatched (startExport_thunk postType state startReply pollReplies))) /\
  length (notices (startExport_thunk postType state startReply pollReplies)) <= 1.
Proof.
  unfold startExport_thunk.
  destruct (getSelectedSite state) as [site|];
    [|split; [done|]; split; [done|]; cbn; split; [done | lia]].
  assert (Hterm : forall r, snd (settling r) = FAIL_EXPORT \/ snd (settling r) = COMPLETE_EXPORT).
  { intros [|status url]; cbn; [by left|].
    destruct (String.eqb status "finished"); [by right | by left]. }
  split; [done|].
  pose proof (poll_dispatched (ID site) 0 pollReplies) as Hp.
  unfold dispatched, notices in *.
  destruct startReply as [[|]|]; cbn.
  - split; [|split; [done | lia]]. intros ? [= <-]. eexists. split; [done|]. auto.
  - destruct Hp as [[-> ->]|(r & _ & -> & ->)].
    + split; [|split; [done | cbn; lia]]. intros ? [= <-]. eexists. split; [done|]. auto.
    + destruct (settling_terminal r) as (Ht & Hlen & _).
      cbn. rewrite Ht, Hlen. cbn. split; [|split; [done | lia]].
      intros ? [= <-]. eexists. split; [done|].
      destruct (Hterm r) as [-> | ->]; auto.
  - split; [|split; [done | lia]]. intros ? [= <-]. eexists. split; [done|]. auto.
Qed.

(** X18: Once the export has started the thunk polls until the first answer
    that is not [running]: one [getExport] call more than there are such
    answers in front, the first one scheduled at once and each further
    one after 500 ms.  It does not poll unless the start was acknowledged. *)
Theorem startExport_polling (postType : PostTypeArg) (state : State) (site : Site)
    (startReply : option StartReply) (pollReplies : list PollReply) :
  getSelectedSite state = Some site ->
  polls (startExport_thunk postType state (Some StartOk) pollReplies)
  = S (leading_running pollReplies) /\
  timeouts (startExport_thunk postType state (Some StartOk) pollReplies)
  = 0%Z :: replicate (leading_running pollReplies) 500%Z /\
  (startReply <> Some StartOk ->
     polls (startExport_thunk postType state startReply pollReplies) = 0 /\
     timeouts (startExport_thunk postType state startReply pollReplies) = []).
Proof.
  intros Hsite. unfold startExport_thunk. rewrite Hsite.
  destruct (poll_counts (ID site) 0 pollReplies) as [Hp Ht].
  split; [|split].
  - unfold polls in *. cbn. exact Hp.
  - unfold timeouts in *. cbn. exact Ht.
  - intros Hno. by destruct startReply as [[|]|].
Qed.

Lemma poll_ignores_later siteId t running r later :
  forallb is_running running = true -> is_running r = false ->
  poll siteId t (running ++ r :: later) = poll siteId t (running ++ [r]).
Proof.
  revert t. induction running as [|x running IH]; intros t Hall Hr.
  - cbn [app]. by rewrite !poll_not_running.
  - cbn in Hall. apply andb_true_iff in Hall as [Hx Hall].
    cbn [app]. rewrite !poll_running by done. by rewrite IH.
Qed.

Lemma poll_settles siteId t running r :
  forallb is_running running = true -> is_running r = false ->
  dispatched (poll siteId t (running ++ [r])) = [snd (settling r)] /\
  notices (poll siteId t (running ++ [r])) = fst (settling r).
Proof.
  revert t. induction running as [|x running IH]; intros t Hall Hr.
  - cbn [app]. rewrite poll_not_running by done. apply dispatched_settling.
  - cbn in Hall. apply andb_true_iff in Hall as [Hx Hall].
    cbn [app]. rewrite poll_running by done. by apply (IH 500%Z).
Qed.

(** X19: The first answer that is not [running] settles the export: whatever
    the server would answer later is never asked for.  A [finished]
    answer completes the export with a notice that links to the
    attachment; an error or any other status fails it. *)
Theorem startExport_settles_on_first_answer (postType : PostTypeArg) (state : State)
    (site : Site) (running : list PollReply) (r : PollReply) (later : list PollReply) :
  getSelectedSite state = Some site ->
  forallb is_running running = true ->
  is_running r = false ->
  startExport_thunk postType state (Some StartOk) (running ++ r :: later)
  = startExport_thunk postType state (Some StartOk) (running ++ [r]) /\
  dispatched (startExport_thunk postType state (Some StartOk) (running ++ r :: later))
  = [REQUEST_START_EXPORT (ID site) (prepareExportRequest state postType);
     REPLY_START_EXPORT; snd (settling r)] /\
  notices (startExport_thunk postType state (Some StartOk) (running ++ r :: later))
  = fst (settling r) /\
  (snd (settling r) = COMPLETE_EXPORT <->
   exists url, r = PollResponse "finished" url /\
     fst (settling r)
     = [NoticeSuccess
          (translate "Your export was successful! A download link has also been sent to your email.")
          (translate "Download") url]).
Proof.
  intros Hsite Hall Hr. unfold startExport_thunk. rewrite Hsite.
  rewrite (poll_ignores_later _ _ _ _ later) by done.
  destruct (poll_settles (ID site) 0 running r Hall Hr) as [Hd Hn].
  split; [done|]. split; [|split].
  - unfold dispatched in *. cbn. by rewrite Hd.
  - unfold notices in *. cbn. exact Hn.
  - destruct r as [|status url]; cbn.
    + split; [done | by intros (? & ? & _)].
    + destruct (String.eqb status "finished") eqn:E; cbn.
      * apply String.eqb_eq in E as ->. split; [by eauto | done].
      * apply String.eqb_neq in E. split; [done|]. intros (u & [= -> _] & _). done.
Qed.

(** X20: [ensureHasSettings] fetches the settings of the selected site unless
    they are the ones it holds: it then dispatches the fetch, asks the
    server and dispatches what the server answers.  With no site selected
    it does nothing when [forSiteId] is undefined and throws otherwise. *)
Theorem ensureHasSettings_cases (state : State) (reply : option SettingsData) :
  (forall site, getSelectedSite state = Some site ->
     (forSiteId state = IdNumber (ID site) -> ensureHasSettings state reply = inr []) /\
     (forSiteId state <> IdNumber (ID site) ->
        ensureHasSettings state reply = inr (fetchExportSettings (ID site) reply) /\
        dispatched (fetchExportSettings (ID site) reply)
        = FETCH_EXPORTER_ADVANCED_SETTINGS (ID site)
          :: match reply with
             | Some data => [RECEIVE_EXPORTER_ADVANCED_SETTINGS (ID site) data]
             | None => []
             end)) /\
  (getSelectedSite state = None ->
     (forSiteId state = IdUndefined -> ensureHasSettings state reply = inr []) /\
     (forSiteId state <> IdUndefined -> ensureHasSettings state reply = inl tt)).
Proof.
  unfold ensureHasSettings. split.
  - intros site ->. cbn. split.
    + intros ->. by rewrite bool_decide_eq_false_2 by (intros Hne; by apply Hne).
    + intros Hne. rewrite bool_decide_eq_true_2 by congruence.
      split; [done|]. by destruct reply.
  - intros ->. cbn. split.
    + intros ->. by rewrite bool_decide_eq_false_2 by (intros Hne; by apply Hne).
    + intros Hne. by rewrite bool_decide_eq_true_2 by congruence.
Qed.

End Exporter.

(** ** Scenarios of the connection notices and of the exporter *)

Section UiScenarios.
Import JetpackConnectNotices exporter.

Lemma dismiss_follows_handler_witness :
  showDismiss unit
    {| icon := "plugins"; status := "is-success"; text := "Jetpack is connected";
       showDismiss := true; onDismissClick := Some tt |} = true /\
  exists v',
    getNoticeValues unit (fun s => s)
      {| noticeType := Some "jetpackIsValid"%string; siteUrl := None;
         props_onDismissClick := None |} = Some v' /\
    status unit v' = "is-success"%string.
Proof.
  destruct (dismiss_follows_handler (fun s => s)
              {| noticeType := Some "jetpackIsValid"%string; siteUrl := None;
                 props_onDismissClick := Some tt |}
              None
              {| icon := "plugins"; status := "is-success"; text := "Jetpack is connected";
                 showDismiss := true; onDismissClick := Some tt |}
              eq_refl) as (Hshow & _ & v' & Hv' & _ & Hstatus & _).
  split; [reflexivity|]. exists v'. split; [exact Hv' | exact Hstatus].
Defined.

Lemma startExport_protocol_witness :
  startExport_thunk (H := sample_exporter) PtUndefined (None, IdNull) (Some StartOk) [] = [] /\
  exists rest,
    dispatched (startExport_thunk (H := sample_exporter) (PtString "posts")
                  (Some {| ID := 7 |}, IdNull) (Some StartOk)
                  [PollResponse "running" EmptyString; PollResponse "finished" "/export.zip"])
    = REQUEST_START_EXPORT (H := sample_exporter) 7 (PtString "posts") :: rest.
Proof.
  split.
  - exact (proj1 (startExport_protocol (H := sample_exporter) PtUndefined (None, IdNull)
                    (Some StartOk) []) eq_refl).
  - destruct (startExport_protocol (H := sample_exporter) (PtString "posts")
                (Some {| ID := 7 |}, IdNull) (Some StartOk)
                [PollResponse "running" EmptyString; PollResponse "finished" "/export.zip"])
      as (_ & Hsite & _).
    destruct (Hsite {| ID := 7 |} eq_refl) as (rest & Hd & _).
    exists rest. exact Hd.
Defined.

Lemma startExport_polling_witness :
  polls (startExport_thunk (H := sample_exporter) PtNull (Some {| ID := 7 |}, IdNull)
           (Some StartOk)
           [PollResponse "running" EmptyString; PollResponse "running" EmptyString;
            PollResponse "finished" "/export.zip"]) = 3 /\
  timeouts (startExport_thunk (H := sample_exporter) PtNull (Some {| ID := 7 |}, IdNull)
              (Some StartOk)
              [PollResponse "running" EmptyString; PollResponse "running" EmptyString;
               PollResponse "finished" "/export.zip"]) = [0; 500; 500]%Z.
Proof.
  destruct (startExport_polling (H := sample_exporter) PtNull (Some {| ID := 7 |}, IdNull)
              {| ID := 7 |} None
              [PollResponse "running" EmptyString; PollResponse "running" EmptyString;
               PollResponse "finished" "/export.zip"] eq_refl) as (Hp & Ht & _).
  split; [exact Hp | exact Ht].
Defined.

Lemma startExport_settles_on_first_answer_witness :
  dispatched (startExport_thunk (H := sample_exporter) PtNull (Some {| ID := 7 |}, IdNull)
                (Some StartOk)
                ([PollResponse "running" EmptyString]
                 ++ PollResponse "failed" EmptyString
                 :: [PollResponse "finished" "/export.zip"]))
  = [REQUEST_START_EXPORT (H := sample_exporter) 7 PtNull; REPLY_START_EXPORT; FAIL_EXPORT].
Proof.
  exact (proj1 (proj2 (startExport_settles_on_first_answer (H := sample_exporter)
                         PtNull (Some {| ID := 7 |}, IdNull) {| ID := 7 |}
                         [PollResponse "running" EmptyString]
                         (PollResponse "failed" EmptyString)
                         [PollResponse "finished" "/export.zip"]
                         eq_refl eq_refl eq_refl))).
Defined.

Lemma ensureHasSettings_cases_witness :
  ensureHasSettings (H := sample_exporter) (Some {| ID := 7 |}, IdNumber 7) None = inr [] /\
  ensureHasSettings (H := sample_exporter) (None, IdNull) None = inl tt.
Proof.
  split.
  - destruct (ensureHasSettings_cases (H := sample_exporter)
                (Some {| ID := 7 |}, IdNumber 7) None) as [Hsite _].
    exact (proj1 (Hsite {| ID := 7 |} eq_refl) eq_refl).
  - destruct (ensureHasSettings_cases (H := sample_exporter) (None, IdNull) None)
      as [_ Hnone].
    apply (proj2 (Hnone eq_refl)). discriminate.
Defined.

End UiScenarios.
